(** * QMF: quaternion memory field — vector algebra, text encoder,
      similarity engine, field metrics and result clustering.

    Shallow embedding of [src/lib/quaternion.ts] and of [clusterResults]
    from [src/components/MemoryDecoder.tsx].

    Number model.  A JavaScript [number] is modelled by a real number:
    [+], [-], [*], [/], [Math.sqrt], [Math.cos], [Math.sin], [Math.acos],
    [Math.log2] and [Math.abs] are the exact operations of [R].  Rounding,
    overflow and NaN are outside this model, so an "approximately equal"
    of the specification is an equality here.  Where the range or the
    rounding of the doubles decides a property, the function is embedded
    a second time over binary64 numbers, in [Double].

    String model.  A JavaScript string is its sequence of UTF-16 code
    units.  [String.prototype.toLowerCase] is a built-in of the host and is
    a parameter of the encoder; [latin1ToLowerCase] is the built-in on
    Basic Latin and Latin-1 text. *)

From Stdlib Require Import Reals Lra Lia ZArith Sorted.
From Stdlib Require PrimFloat.
From Equations Require Import Equations.
From stdpp Require Import base decidable list sets gmap.

Open Scope R_scope.

(** ** Data model *)

(** [interface Quaternion { w; x; y; z }]; [createQuaternion] builds it. *)
Record Quaternion : Type := createQuaternion { w : R; x : R; y : R; z : R }.

(** UTF-16 code units. *)
Definition jsstring : Type := list Z.

(** The argument type of [resonanceScore] and [entanglementStrength],
    and the result type of [encodeText]:
    [{ quaternion: Quaternion; primeSignature: number[] }]. *)
Record Encoded : Type := mkEncoded
  { quaternion : Quaternion; primeSignature : list Z }.

Module Memory.

(** [interface Memory]. *)
Record t : Type := make
  { id : jsstring;
    primeSignature : list Z;
    quaternion : Quaternion;
    content : jsstring;
    timestamp : R }.

(** The object literal
    [{ quaternion: m.quaternion, primeSignature: m.primeSignature }]. *)
Definition encoded (m : t) : Encoded :=
  mkEncoded (quaternion m) (primeSignature m).

End Memory.

(** [interface SearchResult]; [clusterId] is optional. *)
Record SearchResult : Type := mkSearchResult
  { memory : Memory.t;
    resonance : R;
    similarity : R;
    quaternionAlignment : R;
    clusterId : option nat }.

Module Cluster.

(** [interface Cluster]. *)
Record t : Type := make
  { id : nat;
    results : list SearchResult;
    avgResonance : R }.

End Cluster.

(** Comparisons of numbers used as branch conditions. *)
#[global] Instance Rge_decision (a b : R) : Decision (a >= b) := Rge_dec a b.
#[global] Instance Rgt_decision (a b : R) : Decision (a > b) := Rgt_dec a b.
#[global] Instance Rlt_decision (a b : R) : Decision (a < b) := Rlt_dec a b.
#[global] Instance Rle_decision (a b : R) : Decision (a <= b) := Rle_dec a b.
#[global] Instance Req_decision : EqDecision R := Req_dec_T.

(** ** Vector algebra *)

(** First 100 primes for encoding. *)
Definition PRIMES : list Z :=
  [ 2; 3; 5; 7; 11; 13; 17; 19; 23; 29; 31; 37; 41; 43; 47; 53; 59; 61; 67; 71;
    73; 79; 83; 89; 97; 101; 103; 107; 109; 113; 127; 131; 137; 139; 149; 151;
    157; 163; 167; 173; 179; 181; 191; 193; 197; 199; 211; 223; 227; 229; 233;
    239; 241; 251; 257; 263; 269; 271; 277; 281; 283; 293; 307; 311; 313; 317;
    331; 337; 347; 349; 353; 359; 367; 373; 379; 383; 389; 397; 401; 409; 419;
    421; 431; 433; 439; 443; 449; 457; 461; 463; 467; 479; 487; 491; 499; 503;
    509; 521; 523; 541 ]%Z.

Definition magnitude (q : Quaternion) : R :=
  sqrt (w q * w q + x q * x q + y q * y q + z q * z q).

Definition normalize (q : Quaternion) : Quaternion :=
  let mag := magnitude q in
  if decide (mag = 0) then createQuaternion 1 0 0 0
  else createQuaternion (w q / mag) (x q / mag) (y q / mag) (z q / mag).

Definition hamiltonProduct (q1 q2 : Quaternion) : Quaternion :=
  normalize
    (createQuaternion
       (w q1 * w q2 - x q1 * x q2 - y q1 * y q2 - z q1 * z q2)
       (w q1 * x q2 + x q1 * w q2 + y q1 * z q2 - z q1 * y q2)
       (w q1 * y q2 - x q1 * z q2 + y q1 * w q2 + z q1 * x q2)
       (w q1 * z q2 + x q1 * y q2 - y q1 * x q2 + z q1 * w q2)).

Definition dot (q1 q2 : Quaternion) : R :=
  w q1 * w q2 + x q1 * x q2 + y q1 * y q2 + z q1 * z q2.

Definition slerp (q1 q2 : Quaternion) (t : R) : Quaternion :=
  let d0 := dot q1 q2 in
  (* if (d < 0) { d = -d; q2Adj = -q2 } *)
  let '(d, q2Adj) :=
    if decide (d0 < 0)
    then (- d0, createQuaternion (- w q2) (- x q2) (- y q2) (- z q2))
    else (d0, q2) in
  if decide (d > 0.9995) then
    normalize
      (createQuaternion
         (w q1 + t * (w q2Adj - w q1))
         (x q1 + t * (x q2Adj - x q1))
         (y q1 + t * (y q2Adj - y q1))
         (z q1 + t * (z q2Adj - z q1)))
  else
    let theta0 := acos d in
    let theta := theta0 * t in
    let sinTheta := sin theta in
    let sinTheta0 := sin theta0 in
    let s0 := cos theta - d * sinTheta / sinTheta0 in
    let s1 := sinTheta / sinTheta0 in
    normalize
      (createQuaternion
         (s0 * w q1 + s1 * w q2Adj)
         (s0 * x q1 + s1 * x q2Adj)
         (s0 * y q1 + s1 * y q2Adj)
         (s0 * z q1 + s1 * z q2Adj)).

(** ** Text encoder *)

(** [PRIMES[(code + i) % PRIMES.length]]; [%] is the truncated remainder. *)
Definition primeAt (i : nat) (code : Z) : Z :=
  let primeIndex := Z.rem (code + Z.of_nat i) (Z.of_nat (length PRIMES)) in
  nth (Z.to_nat primeIndex) PRIMES 0%Z.

(** One round of [primeSignature.forEach((prime, i) => ...)] on the
    accumulators [w], [x], [y], [z]. *)
Definition harmonic (acc : Quaternion) (ip : nat * Z) : Quaternion :=
  let phase := (IZR ip.2 * INR (ip.1 + 1)) / 1000 in
  createQuaternion
    (w acc + cos phase)
    (x acc + sin phase * cos (phase * 2))
    (y acc + sin (phase * 2) * cos phase)
    (z acc + sin phase * sin (phase * 2)).

(** [[...new Set(l)]]: the distinct entries of [l] in the order of their
    first occurrence; [seen] is the set built so far. *)
Fixpoint spreadSet (seen : gset Z) (l : list Z) : list Z :=
  match l with
  | [] => []
  | p :: l' =>
      if decide (p ∈ seen) then spreadSet seen l'
      else p :: spreadSet ({[p]} ∪ seen) l'
  end.

(** The encoder after [text.toLowerCase().split('')]. *)
Definition encodeChars (chars : jsstring) : Encoded :=
  let primeSignature := imap primeAt chars in
  (* primeSignature.length || 1 *)
  let n := if decide (length primeSignature = 0%nat) then 1
           else INR (length primeSignature) in
  let acc := foldl harmonic (createQuaternion 0 0 0 0)
                   (imap pair primeSignature) in
  let quaternion :=
    normalize (createQuaternion (w acc / n) (x acc / n) (y acc / n) (z acc / n)) in
  mkEncoded quaternion (spreadSet ∅ primeSignature).

Section Encoder.

(** [String.prototype.toLowerCase]. *)
Variable toLowerCase : jsstring -> jsstring.

Definition encodeText (text : jsstring) : Encoded :=
  let chars := toLowerCase text in
  encodeChars chars.

End Encoder.

(** Lowercasing of the ASCII letters, the restriction of the built-in to
    code units below 128; used to run the encoder on concrete texts. *)
Definition asciiLower (s : jsstring) : jsstring :=
  (λ c, if decide (65 <= c <= 90)%Z then (c + 32)%Z else c) <$> s.

(** Uppercasing of the ASCII letters, likewise. *)
Definition asciiUpper (s : jsstring) : jsstring :=
  (λ c, if decide (97 <= c <= 122)%Z then (c - 32)%Z else c) <$> s.







(** ** Similarity and entanglement *)

Definition jaccardSimilarity (sig1 sig2 : list Z) : R :=
  let set1 : gset Z := list_to_set sig1 in
  let set2 : gset Z := list_to_set sig2 in
  let intersection : gset Z :=
    list_to_set (filter (λ x, x ∈ set2) (elements set1)) in
  let union : gset Z := list_to_set (elements set1 ++ elements set2) in
  if decide (size union = 0%nat) then 0
  else INR (size intersection) / INR (size union).

Definition resonanceScore (query pattern : Encoded) (alpha beta : R) : R :=
  let jaccard :=
    jaccardSimilarity (primeSignature query) (primeSignature pattern) in
  let semanticAlignment := Rabs (dot (quaternion query) (quaternion pattern)) in
  alpha * jaccard + beta * semanticAlignment.

(** The default values [alpha = 0.5], [beta = 0.5]. *)
Definition resonanceScoreDefault (query pattern : Encoded) : R :=
  resonanceScore query pattern 0.5 0.5.

Definition entanglementStrength (memA memB : Encoded) : R :=
  let sigA : gset Z := list_to_set (primeSignature memA) in
  let sigB : gset Z := list_to_set (primeSignature memB) in
  let intersection : gset Z :=
    list_to_set (filter (λ x, x ∈ sigB) (elements sigA)) in
  let maxSize := Nat.max (size sigA) (size sigB) in
  let primeOverlap :=
    if decide (maxSize = 0%nat) then 0
    else INR (size intersection) / INR maxSize in
  let quatDot := Rabs (dot (quaternion memA) (quaternion memB)) in
  0.5 * (primeOverlap + quatDot).

(** ** Field metrics *)

(** [Math.log2]. *)
Definition log2 (v : R) : R := ln v / ln 2.

(** The state of the counting loops is [(primeFreq, total)].  The
    [Map<number, number>] is a [gmap Z nat]; a [Map] is visited in
    insertion order and a [gmap] in key order, which is the same for the
    sum that [forEach] accumulates here, addition on [R] being
    commutative and associative. *)

(** [primeFreq.set(prime, (primeFreq.get(prime) || 0) + 1); total++]. *)
Definition countPrime (st : gmap Z nat * nat) (prime : Z) : gmap Z nat * nat :=
  (<[prime := (default 0 (st.1 !! prime) + 1)%nat]> st.1, S st.2).

Definition countMemory (st : gmap Z nat * nat) (mem : Memory.t)
  : gmap Z nat * nat :=
  foldl countPrime st (Memory.primeSignature mem).

Definition calculateEntropy (memories : list Memory.t) : R :=
  if decide (length memories = 0%nat) then 0 else
  let '(primeFreq, total) := foldl countMemory (∅, 0%nat) memories in
  if decide (total = 0%nat) then 0 else
  let entropy :=
    map_fold (λ _ count entropy,
                let p := INR count / INR total in
                if decide (p > 0) then entropy - p * log2 p else entropy)
             0 primeFreq in
  (* Math.log2(primeFreq.size || 1) *)
  let maxEntropy :=
    log2 (if decide (size primeFreq = 0%nat) then 1 else INR (size primeFreq)) in
  if decide (maxEntropy = 0) then 0 else entropy / maxEntropy.

(** ** Search-result clustering *)

(** [clusterResults] of [MemoryDecoder.tsx]; the two versions in the
    repository differ only in the default value 0.3 of [threshold].
    Results are values here.  In the source they are objects, and
    [r.clusterId = clusterId] writes to the objects held by the input
    array; [handleSearch] builds them with [memories.map], one fresh
    object per position, so no object is written twice, and the loops
    read only [memory] and [resonance], which are never written. *)

(** [r.clusterId = clusterId]. *)
Definition setClusterId (clusterId : nat) (r : SearchResult) : SearchResult :=
  mkSearchResult (memory r) (resonance r) (similarity r)
                 (quaternionAlignment r) (Some clusterId).

(** The [strength] of the inner loop: [results[i]] against [results[j]]. *)
Definition strength (ri rj : SearchResult) : R :=
  entanglementStrength (Memory.encoded (memory ri)) (Memory.encoded (memory rj)).

(** [cluster.reduce((sum, r) => sum + r.resonance, 0) / cluster.length]. *)
Definition average (cluster : list SearchResult) : R :=
  foldl (λ sum r, sum + resonance r) 0 cluster / INR (length cluster).

(** Body of the inner loop [for (j = i + 1; j < results.length; j++)];
    the state is [(cluster, assigned)], [seed] is [results[i]]. *)
Definition scanStep (results : list SearchResult) (threshold : R)
    (seed : SearchResult) (st : list SearchResult * gset nat) (j : nat)
  : list SearchResult * gset nat :=
  if decide (j ∈ st.2) then st
  else match results !! j with
       | None => st (* not reached: j < results.length *)
       | Some rj =>
           if decide (strength seed rj >= threshold)
           then (st.1 ++ [rj], {[j]} ∪ st.2)
           else st
       end.

(** Body of the outer loop [for (i = 0; i < results.length; i++)];
    the state is [(assigned, clusterList)]. *)
Definition clusterStep (results : list SearchResult) (threshold : R)
    (st : gset nat * list Cluster.t) (i : nat) : gset nat * list Cluster.t :=
  if decide (i ∈ st.1) then st
  else match results !! i with
       | None => st (* not reached: i < results.length *)
       | Some ri =>
           let inner :=
             foldl (scanStep results threshold ri) ([ri], {[i]} ∪ st.1)
                   (seq (i + 1) (length results - (i + 1))) in
           let clusterId := length st.2 in
           let cluster := setClusterId clusterId <$> inner.1 in
           (inner.2,
            st.2 ++ [Cluster.make clusterId cluster (average cluster)])
       end.

(** The comparator [(a, b) => b.avgResonance - a.avgResonance]. *)
Definition byAvgResonance (a b : Cluster.t) : R :=
  Cluster.avgResonance b - Cluster.avgResonance a.

(** [clusterList.sort(byAvgResonance)].  [Array.prototype.sort] is stable:
    the result is the arrangement in which [a] stays in front of a later
    [b] unless the comparator is positive on [(a, b)].  [insertDesc] puts a
    later cluster [c] behind every earlier [d] with
    [byAvgResonance d c <= 0]. *)
Fixpoint insertDesc (c : Cluster.t) (l : list Cluster.t) : list Cluster.t :=
  match l with
  | [] => [c]
  | d :: l' =>
      if decide (byAvgResonance d c <= 0)
      then d :: insertDesc c l'
      else c :: d :: l'
  end.

Definition sortDesc (l : list Cluster.t) : list Cluster.t :=
  foldl (λ sorted c, insertDesc c sorted) [] l.

Definition clusterResults (results : list SearchResult) (threshold : R)
  : list Cluster.t :=
  if decide (length results = 0%nat) then [] else
  let final :=
    foldl (clusterStep results threshold) (∅, []) (seq 0 (length results)) in
  sortDesc final.2.

(** The clustering algorithm in the words of the specification: take the
    results in order; the first unassigned one seeds a new cluster, which
    absorbs every later unassigned result linked to the seed; go on with
    the results left unassigned. *)
Equations? greedy {A : Type} (linked : A -> A -> Prop)
    {dec : RelDecision linked} (l : list A) : list (list A)
    by wf (length l) lt :=
greedy linked [] := [];
greedy linked (seed :: later) :=
  (seed :: filter (linked seed) later)
    :: greedy linked (filter (λ r, ¬ linked seed r) later).
Proof.
  simpl. pose proof (length_filter (λ r, ¬ linked seed r) later). lia.
Qed.

(** "whose entanglementStrength against the cluster's seed result meets
    or exceeds the threshold". *)
Definition entangled (threshold : R) (seed r : SearchResult) : Prop :=
  strength seed r >= threshold.

#[global] Instance entangled_dec threshold : RelDecision (entangled threshold).
Proof. intros seed r. unfold entangled. apply _. Defined.

(** A cluster of the specification: its number, its members and the
    average resonance of its members. *)
Definition specCluster (k : nat) (members : list SearchResult) : Cluster.t :=
  let members' := setClusterId k <$> members in
  Cluster.make k members' (average members').

(** "sorted by descending average resonance". *)
Definition descending (l : list Cluster.t) : Prop :=
  StronglySorted (λ a b, Cluster.avgResonance a >= Cluster.avgResonance b) l.

(** ** Definitions of the specification used in the statements *)

(** [w² + x² + y² + z²]. *)
Definition sumSquares (q : Quaternion) : R :=
  w q * w q + x q * x q + y q * y q + z q * z q.

(** The Hamilton formula of the specification, before normalization. *)
Definition hamiltonFormula (a b : Quaternion) : Quaternion :=
  createQuaternion
    (w a * w b - x a * x b - y a * y b - z a * z b)
    (w a * x b + x a * w b + y a * z b - z a * y b)
    (w a * y b - x a * z b + y a * w b + z a * x b)
    (w a * z b + x a * y b - y a * x b + z a * w b).

(** [-q], the sign correction of [slerp]. *)
Definition negate (q : Quaternion) : Quaternion :=
  createQuaternion (- w q) (- x q) (- y q) (- z q).

(** The results from position [i] on, each with its position. *)
Definition entriesFrom (i : nat) (rs : list SearchResult)
  : list (nat * SearchResult) :=
  imap (λ k r, ((i + k)%nat, r)) rs.

(** The entries from position [i] on that are not yet assigned. *)
Definition pendingFrom (i : nat) (rs : list SearchResult)
    (assigned : gset nat) : list (nat * SearchResult) :=
  filter (λ e, e.1 ∉ assigned) (entriesFrom i rs).

(** [entangled] on entries. *)
Definition entangledEntries (threshold : R) (e e' : nat * SearchResult)
  : Prop :=
  entangled threshold e.2 e'.2.

#[global] Instance entangledEntries_dec threshold :
  RelDecision (entangledEntries threshold).
Proof. intros e e'. unfold entangledEntries. apply _. Defined.

(** Member [r] of cluster [c] is the input result at position [j], with
    its [clusterId] set to the cluster's [id]. *)
Definition memberAt (results : list SearchResult) (c : Cluster.t)
    (r : SearchResult) (j : nat) : Prop :=
  ∃ r0, results !! j = Some r0 /\ r = setClusterId (Cluster.id c) r0.

(** The members of cluster [c] are, in order, the input results at the
    positions [part]. *)
Definition clusterAt (results : list SearchResult) (c : Cluster.t)
    (part : list nat) : Prop :=
  Forall2 (memberAt results c) (Cluster.results c) part.

(** The sum of the counts held in a frequency table. *)
Definition sumCounts (primeFreq : gmap Z nat) : nat :=
  map_fold (λ _ count s, (count + s)%nat) 0%nat primeFreq.

(** The entropy loop [primeFreq.forEach(count => ...)] over the counts
    in the order in which the table yields them. *)
Definition entropyOf (total : nat) (counts : list nat) : R :=
  foldr (λ count entropy,
           let p := INR count / INR total in
           if decide (p > 0) then entropy - p * log2 p else entropy)
        0 counts.

(** What the counting loops maintain: the counts add up to [total] and
    every count in the table is at least 1. *)
Definition counted (st : gmap Z nat * nat) : Prop :=
  sumCounts st.1 = st.2 /\ map_Forall (λ _ c, 1 <= c)%nat st.1.

(** "every signature entry across all memories". *)
Definition allEntries (memories : list Memory.t) : list Z :=
  concat (Memory.primeSignature <$> memories).

(** The frequency table after counting [entries]. *)
Definition tableOf (entries : list Z) : gmap Z nat :=
  (foldl countPrime (∅, 0%nat) entries).1.

(** Number of occurrences of [prime] among the entries. *)
Definition frequency (prime : Z) (entries : list Z) : nat :=
  length (filter (λ v, v = prime) entries).

(** The distinct primes among the entries. *)
Definition distinctPrimes (entries : list Z) : list Z :=
  elements (list_to_set entries : gset Z).

(** Shannon entropy [H = −Σ p·log2(p)] of the frequency distribution. *)
Definition shannon (entries : list Z) : R :=
  foldr (λ prime acc,
           let p := INR (frequency prime entries) / INR (length entries) in
           acc - p * log2 p)
        0 (distinctPrimes entries).

(** The entropy metric in the words of the specification. *)
Definition entropySpec (memories : list Memory.t) : R :=
  let entries := allEntries memories in
  if decide (length entries = 0%nat) then 0 else
  let maxEntropy := log2 (INR (length (distinctPrimes entries))) in
  if decide (maxEntropy = 0) then 0 else shannon entries / maxEntropy.

(** Sample results: [rA] has signature [2; 3] and quaternion (1,0,0,0),
    [rB] has signature [5] and quaternion (0,1,0,0). *)
Definition rA (res : R) : SearchResult :=
  mkSearchResult
    (Memory.make [] [2; 3]%Z (createQuaternion 1 0 0 0) [] 0) res 0 0 None.

Definition rB (res : R) : SearchResult :=
  mkSearchResult
    (Memory.make [] [5]%Z (createQuaternion 0 1 0 0) [] 0) res 0 0 None.

(** ** Further vector algebra *)

(** Commutator [q1, q2] = q1*q2 - q2*q1. *)
Definition commutator (q1 q2 : Quaternion) : Quaternion :=
  let q1q2 := hamiltonProduct q1 q2 in
  let q2q1 := hamiltonProduct q2 q1 in
  createQuaternion (w q1q2 - w q2q1) (x q1q2 - x q2q1)
                   (y q1q2 - y q2q1) (z q1q2 - z q2q1).

Module Point3.

(** [{ x: number; y: number; z: number }]. *)
Record t : Type := make { x : R; y : R; z : R }.

(** [x² + y² + z²]. *)
Definition normSquared (p : t) : R := x p * x p + y p * y p + z p * z p.

End Point3.

(** Stereographic projection from 4D to 3D. *)
Definition stereographicProject (q : Quaternion) : Point3.t :=
  let denom := 1 - w q in
  if decide (Rabs denom < 0.001)
  then Point3.make (x q * 10) (y q * 10) (z q * 10)
  else Point3.make (x q / denom) (y q / denom) (z q / denom).

(** [randomQuaternion], as a function of the three values that
    [Math.random()] returns for [u1], [u2] and [u3]. *)
Definition randomQuaternion (u1 u2 u3 : R) : Quaternion :=
  normalize
    (createQuaternion
       (sqrt (1 - u1) * sin (2 * PI * u2))
       (sqrt (1 - u1) * cos (2 * PI * u2))
       (sqrt u1 * sin (2 * PI * u3))
       (sqrt u1 * cos (2 * PI * u3))).

(** The [position] of [QuaternionPoint]: the projection scaled into the
    display cube. *)
Definition position (quaternion : Quaternion) : Point3.t :=
  let proj := stereographicProject quaternion in
  let maxVal :=
    Rmax (Rmax (Rmax (Rabs (Point3.x proj)) (Rabs (Point3.y proj)))
               (Rabs (Point3.z proj))) 1 in
  let scale := Rmin 1.2 (1 / maxVal) in
  Point3.make (Point3.x proj * scale) (Point3.y proj * scale)
              (Point3.z proj * scale).

(** The cross product of the vector parts, as a quaternion with scalar
    part 0. *)
Definition vectorCross (a b : Quaternion) : Quaternion :=
  createQuaternion 0
    (y a * z b - z a * y b)
    (z a * x b - x a * z b)
    (x a * y b - y a * x b).

(** [k·q], componentwise. *)
Definition scale (k : R) (q : Quaternion) : Quaternion :=
  createQuaternion (k * w q) (k * x q) (k * y q) (k * z q).

(** The same signature with the quaternion [-q]. *)
Definition antipode (e : Encoded) : Encoded :=
  mkEncoded (negate (quaternion e)) (primeSignature e).

(** ** Further field metrics *)



(** The magnitude [d1] of the componentwise difference of two
    quaternions. *)
Definition distance (qi qp : Quaternion) : R :=
  magnitude (createQuaternion (w qi - w qp) (x qi - x qp)
                              (y qi - y qp) (z qi - z qp)).

(** Body of the loop [for (let i = 1; i < memories.length; i++)] of
    [calculateLyapunov]; the state is [divergenceSum]. *)
Definition divergenceStep (memories : list Memory.t) (divergenceSum : R)
    (i : nat) : R :=
  match memories !! i, memories !! (i - 1)%nat with
  | Some mi, Some mp =>
      let d1 := distance (Memory.quaternion mi) (Memory.quaternion mp) in
      if decide (d1 > 0.001) then divergenceSum + ln d1 else divergenceSum
  | _, _ => divergenceSum (* not reached: 1 <= i < memories.length *)
  end.

Definition calculateLyapunov (memories : list Memory.t) : R :=
  if decide (length memories < 2)%nat then 0 else
  foldl (divergenceStep memories) 0 (seq 1 (length memories - 1))
  / INR (length memories - 1).

(** What one pair of consecutive memories adds to [divergenceSum]. *)
Definition divergence (qi qp : Quaternion) : R :=
  if decide (distance qi qp > 0.001) then ln (distance qi qp) else 0.

(** The contributions of the consecutive pairs of a list of quaternions,
    in order. *)
Fixpoint divergences (qs : list Quaternion) : list R :=
  match qs with
  | qp :: (qi :: _) as rest => divergence qi qp :: divergences rest
  | _ => []
  end.

(** The sum of a list of numbers. *)
Definition sumR (l : list R) : R := foldr Rplus 0 l.

(** ** Search *)

(** The comparator [(a, b) => b.resonance - a.resonance]. *)
Definition byResonance (a b : SearchResult) : R := resonance b - resonance a.

(** [searchResults.sort(byResonance)], a stable sort as [sortDesc] is. *)
Fixpoint insertResult (r : SearchResult) (l : list SearchResult)
  : list SearchResult :=
  match l with
  | [] => [r]
  | d :: l' =>
      if decide (byResonance d r <= 0)
      then d :: insertResult r l'
      else r :: d :: l'
  end.

Definition sortResults (l : list SearchResult) : list SearchResult :=
  foldl (λ sorted r, insertResult r sorted) [] l.

(** The callback of [memories.map] in [handleSearch]. *)
Definition scoreMemory (queryEncoded : Encoded) (alpha beta : R)
    (memory : Memory.t) : SearchResult :=
  let resonance :=
    resonanceScore queryEncoded (Memory.encoded memory) alpha beta in
  let similarity :=
    jaccardSimilarity (primeSignature queryEncoded)
                      (Memory.primeSignature memory) in
  let quaternionAlignment :=
    Rabs (dot (normalize (quaternion queryEncoded))
              (normalize (Memory.quaternion memory))) in
  mkSearchResult memory resonance similarity quaternionAlignment None.

(** The search settings held in the state of [MemoryDecoder]; the input
    field keeps [maxResults] an integer between 1 and 100. *)
Record SearchSettings : Type := mkSearchSettings
  { clusterThreshold : R;
    maxResults : nat;
    alphaWeight : R;
    betaWeight : R;
    enableClustering : bool;
    minResonance : R }.

(** The settings fixed in the version of [MemoryDecoder.tsx]. *)
Definition defaultSettings : SearchSettings :=
  mkSearchSettings 0.3 20 0.5 0.5 true 0.

Section Search.

(** [String.prototype.toLowerCase] and [String.prototype.trim]. *)
Variable toLowerCase : jsstring -> jsstring.
Variable trim : jsstring -> jsstring.

(** [searchResults] before the sort: the scored memories, filtered by
    minimum resonance. *)
Definition candidates (settings : SearchSettings) (query : jsstring)
    (memories : list Memory.t) : list SearchResult :=
  let queryEncoded := encodeText toLowerCase query in
  let searchResults :=
    scoreMemory queryEncoded (alphaWeight settings) (betaWeight settings)
      <$> memories in
  if decide (minResonance settings > 0)
  then filter (λ r, resonance r >= minResonance settings) searchResults
  else searchResults.

(** [topResults]: sorted and cut to [maxResults]. *)
Definition topResults (settings : SearchSettings) (query : jsstring)
    (memories : list Memory.t) : list SearchResult :=
  take (maxResults settings) (sortResults (candidates settings query memories)).

(** [handleSearch]: the new value of the state [clusters], given its
    old value. *)
Definition handleSearch (settings : SearchSettings) (query : jsstring)
    (memories : list Memory.t) (clusters : list Cluster.t) : list Cluster.t :=
  if decide (trim query = [] \/ length memories = 0%nat) then clusters
  else
    let top := topResults settings query memories in
    if enableClustering settings
    then clusterResults top (clusterThreshold settings)
    else [Cluster.make 0 top
            (if decide (length top = 0%nat) then 0 else average top)].

End Search.

(** "sorted descending by score". *)
Definition descendingResults (l : list SearchResult) : Prop :=
  StronglySorted (λ a b, resonance a >= resonance b) l.

(** ** The memory list *)

(** [getEntanglementCount] of [MemoryList]: the number of other memories
    linked to [memory]. *)
Definition getEntanglementCount (memories : list Memory.t)
    (memory : Memory.t) : nat :=
  foldl (λ count other,
           if decide (Memory.id other ≠ Memory.id memory) then
             let strength :=
               entanglementStrength (Memory.encoded memory)
                                    (Memory.encoded other) in
             if decide (strength >= 0.3) then S count else count
           else count)
        0%nat memories.

(** [other] is counted for [memory]. *)
Definition linkShown (memory other : Memory.t) : Prop :=
  Memory.id other ≠ Memory.id memory /\
  entanglementStrength (Memory.encoded memory) (Memory.encoded other) >= 0.3.

#[global] Instance linkShown_dec : RelDecision linkShown.
Proof. intros memory other. unfold linkShown. apply _. Defined.

(** ** Compression metrics *)

Module CompressionData.

(** [interface CompressionData]; the byte counts are whole numbers. *)
Record t : Type := make
  { rawBytes : nat;
    encodedBytes : nat;
    quaternionBytes : nat;
    primeSignatureBytes : nat;
    compressionRatio : R;
    spaceSavings : R;
    bitsPerChar : R;
    informationDensity : R;
    uniquePrimes : nat;
    avgPrimesPerMemory : R }.

End CompressionData.

(** One round of [memories.forEach(m => ...)] in [calculateCompression];
    the state is [(allPrimes, totalPrimes)]. *)
Definition collectPrimes (st : gset Z * nat) (m : Memory.t) : gset Z * nat :=
  (foldl (λ allPrimes p, {[p]} ∪ allPrimes) st.1 (Memory.primeSignature m),
   (st.2 + length (Memory.primeSignature m))%nat).

Section Compression.

(** [new TextEncoder().encode(s).length], the number of bytes of the
    UTF-8 encoding of a string. *)
Variable utf8Length : jsstring -> nat.

Definition calculateCompression (memories : list Memory.t)
  : CompressionData.t :=
  if decide (length memories = 0%nat)
  then CompressionData.make 0 0 0 0 1 0 0 0 0 0
  else
    let rawBytes :=
      foldl (λ sum m, (sum + utf8Length (Memory.content m))%nat) 0%nat
            memories in
    let quaternionBytes := (length memories * 4 * 8)%nat in
    let counted := foldl collectPrimes ((∅ : gset Z), 0%nat) memories in
    let allPrimes := counted.1 in
    let totalPrimes := counted.2 in
    let uniquePrimeBytes := (size allPrimes * 4)%nat in
    (* Math.ceil(allPrimes.size / 8) *)
    let bitmapBytes := (length memories * ((size allPrimes + 7) / 8))%nat in
    let primeSignatureBytes := (uniquePrimeBytes + bitmapBytes)%nat in
    let encodedBytes := (quaternionBytes + primeSignatureBytes)%nat in
    let compressionRatio :=
      if decide (0 < rawBytes)%nat then INR rawBytes / INR encodedBytes
      else 1 in
    let spaceSavings :=
      if decide (0 < rawBytes)%nat
      then (INR rawBytes - INR encodedBytes) / INR rawBytes * 100
      else 0 in
    let totalChars :=
      foldl (λ sum m, (sum + length (Memory.content m))%nat) 0%nat memories in
    let quaternionBits := (quaternionBytes * 8)%nat in
    let bitsPerChar :=
      if decide (0 < totalChars)%nat
      then INR quaternionBits / INR totalChars else 0 in
    let informationDensity :=
      if decide (0 < encodedBytes)%nat
      then INR (length memories) / INR encodedBytes else 0 in
    CompressionData.make
      rawBytes encodedBytes quaternionBytes primeSignatureBytes
      compressionRatio spaceSavings bitsPerChar informationDensity
      (size allPrimes)
      (if decide (0 < length memories)%nat
       then INR totalPrimes / INR (length memories) else 0).

End Compression.

(** ** The page state *)

Module App.

(** The state of [Index]: [memories], [selectedMemory] and
    [activeQuaternion]. *)
Record state : Type := mkState
  { memories : list Memory.t;
    selectedMemory : option Memory.t;
    activeQuaternion : Quaternion }.

Definition initial : state := mkState [] None (createQuaternion 1 0 0 0).

(** [handleEncode]; [uuid] and [now] are the values of
    [crypto.randomUUID()] and [Date.now()]. *)
Definition handleEncode (uuid : jsstring) (now : R) (content : jsstring)
    (quaternion : Quaternion) (primeSignature : list Z) (s : state) : state :=
  let newMemory := Memory.make uuid primeSignature quaternion content now in
  mkState (newMemory :: memories s) (Some newMemory) quaternion.

Definition handleSelectMemory (memory : Memory.t) (s : state) : state :=
  mkState (memories s) (Some memory) (Memory.quaternion memory).

Definition handleDeleteMemory (id : jsstring) (s : state) : state :=
  let memories' := filter (λ m, Memory.id m ≠ id) (memories s) in
  (* selectedMemory?.id === id *)
  match selectedMemory s with
  | Some selected =>
      if decide (Memory.id selected = id)
      then mkState memories' None (createQuaternion 1 0 0 0)
      else mkState memories' (selectedMemory s) (activeQuaternion s)
  | None => mkState memories' (selectedMemory s) (activeQuaternion s)
  end.

Definition handleClearMemories (s : state) : state :=
  mkState [] None (createQuaternion 1 0 0 0).

Definition handleMemoriesGenerated (newMemories : list Memory.t) (s : state)
  : state :=
  match newMemories with
  | first :: _ => mkState newMemories (Some first) (Memory.quaternion first)
  | [] => mkState newMemories (selectedMemory s) (activeQuaternion s)
  end.

(** The events that reach the handlers. *)
Inductive event : Type :=
| Encode (uuid : jsstring) (now : R) (content : jsstring)
         (quaternion : Quaternion) (primeSignature : list Z)
| Select (memory : Memory.t)
| Delete (id : jsstring)
| Clear
| Generated (newMemories : list Memory.t).

Definition handle (s : state) (e : event) : state :=
  match e with
  | Encode uuid now content quaternion primeSignature =>
      handleEncode uuid now content quaternion primeSignature s
  | Select memory => handleSelectMemory memory s
  | Delete id => handleDeleteMemory id s
  | Clear => handleClearMemories s
  | Generated newMemories => handleMemoriesGenerated newMemories s
  end.

(** The state after a sequence of events. *)
Definition run (events : list event) : state := foldl handle initial events.

(** The quaternion on display belongs to the selection. *)
Definition displaysSelection (s : state) : Prop :=
  activeQuaternion s =
  match selectedMemory s with
  | Some selected => Memory.quaternion selected
  | None => createQuaternion 1 0 0 0
  end.

End App.

(** The selection, when there is one, is a memory of the collection. *)
Definition selectionStored (s : App.state) : Prop :=
  match App.selectedMemory s with
  | Some selected => selected ∈ App.memories s
  | None => True
  end.

(** The events after which the selection is still in the collection:
    all but the selection of a memory that is not in the collection, and
    an empty generated batch while a memory is selected.  The interface
    can raise the first of these: the decoder keeps the clusters of its
    last search and selects from them, also a memory deleted since. *)
Definition keepsSelection (s : App.state) (e : App.event) : Prop :=
  match e with
  | App.Select memory => memory ∈ App.memories s
  | App.Generated newMemories =>
      newMemories ≠ [] \/ App.selectedMemory s = None
  | _ => True
  end.

(** Two memories, and the page after they were encoded in this order. *)
Definition noteA : Memory.t :=
  Memory.make [1]%Z [2]%Z (createQuaternion 1 0 0 0) [97]%Z 0.

Definition noteB : Memory.t :=
  Memory.make [2]%Z [3]%Z (createQuaternion 0 1 0 0) [98]%Z 1.

Definition twoNotes : App.state :=
  App.run [App.Encode [1]%Z 0 [97]%Z (createQuaternion 1 0 0 0) [2]%Z;
           App.Encode [2]%Z 1 [98]%Z (createQuaternion 0 1 0 0) [3]%Z].

(** ** Double precision *)

(** The sums of squares on which [magnitude], computed in doubles,
    neither overflows nor leaves the range of the normal numbers: from
    2^-1022 to 2^1023. *)
Definition inDoubleRange (v : R) : Prop := / 2 ^ 1022 <= v <= 2 ^ 1023.

(** The memory of the text "abcdefghijk": its eleven code units select
    eleven distinct primes. *)
Definition alphabetMemory : Memory.t :=
  Memory.make [7]%Z [521; 541; 3; 7; 13; 19; 29; 37; 43; 53; 61]%Z
              (createQuaternion 1 0 0 0)
              [97; 98; 99; 100; 101; 102; 103; 104; 105; 106; 107]%Z 0.

(** [magnitude], [normalize] and [calculateEntropy] once more, over the
    binary64 numbers of JavaScript: [+], [-], [*], [/] and [Math.sqrt] are
    the IEEE 754 operations, rounded to nearest.  [Math.log2] is left to
    the host by ECMAScript ("implementation-approximated") and is a
    parameter. *)
Module Double.

Import PrimFloat.
#[local] Open Scope float_scope.

Record Quaternion : Type :=
  createQuaternion { w : float; x : float; y : float; z : float }.

Definition magnitude (q : Quaternion) : float :=
  sqrt (w q * w q + x q * x q + y q * y q + z q * z q).

Definition normalize (q : Quaternion) : Quaternion :=
  let mag := magnitude q in
  if mag =? 0 then createQuaternion 1 0 0 0
  else createQuaternion (w q / mag) (x q / mag) (y q / mag) (z q / mag).

(** The quaternions (1e200, 0, 0, 0), (3, 4, 0, 0) and (0, 0, 0, 0). *)
Definition huge : Quaternion := createQuaternion 0x1.4e718d7d7625ap+664 0 0 0.

Definition threeFour : Quaternion := createQuaternion 3 4 0 0.

Definition origin : Quaternion := createQuaternion 0 0 0 0.

(** A value that JavaScript takes as false: 0, -0 or NaN. *)
Definition falsy (v : float) : bool := (v =? 0) || is_nan v.

(** [primeFreq.set(prime, (primeFreq.get(prime) || 0) + 1)] on the entries
    of the [Map] in insertion order: the count of a key that is present
    is replaced in place, a new key is added at the end. *)
Fixpoint setCount (prime : Z) (primeFreq : list (Z * float))
  : list (Z * float) :=
  match primeFreq with
  | [] => [(prime, 0 + 1)]
  | (key, count) :: rest =>
      if decide (key = prime)
      then (key, (if falsy count then 0 else count) + 1) :: rest
      else (key, count) :: setCount prime rest
  end.

(** The state of the counting loops is [(primeFreq, total)]. *)
Definition countPrime (st : list (Z * float) * float) (prime : Z)
  : list (Z * float) * float :=
  (setCount prime st.1, st.2 + 1).

Definition countMemory (st : list (Z * float) * float) (mem : Memory.t)
  : list (Z * float) * float :=
  foldl countPrime st (Memory.primeSignature mem).

(** The integer [n] as a number. *)
Fixpoint ofNat (n : nat) : float :=
  match n with
  | O => 0
  | S k => ofNat k + 1
  end.

Section Entropy.

(** [Math.log2]. *)
Variable log2 : float -> float.

Definition calculateEntropy (memories : list Memory.t) : float :=
  if decide (length memories = 0%nat) then 0 else
  let '(primeFreq, total) := foldl countMemory ([], 0) memories in
  if total =? 0 then 0 else
  let entropy :=
    foldl (λ entropy entry,
             let p := entry.2 / total in
             if 0 <? p then entropy - p * log2 p else entropy)
          0 primeFreq in
  (* Math.log2(primeFreq.size || 1) *)
  let maxEntropy :=
    log2 (if decide (length primeFreq = 0%nat) then 1
          else ofNat (length primeFreq)) in
  if maxEntropy =? 0 then 0 else entropy / maxEntropy.

End Entropy.

(** The numbers 11 and 1/11, the double nearest to the binary logarithm
    of 11, 3.4594316186372973, and the double next above 1,
    1.0000000000000002. *)
Definition eleven : float := 11.

Definition eleventh : float := 1 / 11.

Definition log2Eleven : float := 0x1.bacea7c065d42p+1.

Definition aboveOne : float := 0x1.0000000000001p+0.

(** A [Math.log2] with the nearest doubles at 11 and at 1/11. *)
Definition log2Nearest (v : float) : float :=
  if v =? eleven then log2Eleven else - log2Eleven.

End Double.

(** * Properties *)

(** ** Vector algebra *)

Section VectorAlgebra.

Implicit Types q a b : Quaternion.

Lemma sumSquares_nonneg q : 0 <= sumSquares q.
Proof. unfold sumSquares. nra. Qed.


Lemma magnitude_square q : magnitude q * magnitude q = sumSquares q.
Proof. apply sqrt_sqrt, sumSquares_nonneg. Qed.

Lemma dot_self q : dot q q = magnitude q * magnitude q.
Proof. now rewrite magnitude_square. Qed.

Lemma magnitude_zero_iff q :
  magnitude q = 0 <-> q = createQuaternion 0 0 0 0.
Proof.
  split.
  - intros Hm. pose proof (magnitude_square q) as Hs.
    rewrite Hm in Hs. unfold sumSquares in Hs. destruct q as [a b c d].
    simpl in Hs.
    assert (a = 0) by nra. assert (b = 0) by nra.
    assert (c = 0) by nra. assert (d = 0) by nra. now subst.
  - intros ->. unfold magnitude. simpl.
    replace (0 * 0 + 0 * 0 + 0 * 0 + 0 * 0) with 0 by ring. apply sqrt_0.
Qed.

Lemma magnitude_one_iff q : magnitude q = 1 <-> sumSquares q = 1.
Proof.
  split.
  - intros Hm. rewrite <- magnitude_square, Hm. ring.
  - intros Hs. unfold magnitude. fold (sumSquares q). rewrite Hs. apply sqrt_1.
Qed.

Lemma normalize_zero q :
  magnitude q = 0 -> normalize q = createQuaternion 1 0 0 0.
Proof. intros Hm. unfold normalize. now rewrite decide_True. Qed.

Lemma normalize_nonzero q :
  magnitude q <> 0 ->
  normalize q =
  createQuaternion (w q / magnitude q) (x q / magnitude q)
                   (y q / magnitude q) (z q / magnitude q).
Proof. intros Hm. unfold normalize. now rewrite decide_False. Qed.

(** Whatever its argument, [normalize] returns a unit quaternion. *)
Lemma magnitude_normalize q : magnitude (normalize q) = 1.
Proof.
  apply magnitude_one_iff. unfold normalize.
  destruct (decide (magnitude q = 0)) as [Hm|Hm]; unfold sumSquares; simpl.
  - ring.
  - pose proof (magnitude_square q) as Hs. unfold sumSquares in Hs.
    set (m := magnitude q) in *.
    replace (w q / m * (w q / m) + x q / m * (x q / m) +
             y q / m * (y q / m) + z q / m * (z q / m))
      with ((w q * w q + x q * x q + y q * y q + z q * z q) / (m * m))
      by (field; exact Hm).
    rewrite <- Hs. field. exact Hm.
Qed.

Lemma normalize_unit q : magnitude q = 1 -> normalize q = q.
Proof.
  intros Hm. rewrite normalize_nonzero by (rewrite Hm; lra).
  rewrite Hm. destruct q; simpl. f_equal; field.
Qed.

Lemma dot_comm a b : dot a b = dot b a.
Proof. unfold dot. ring. Qed.

(** The norm is multiplicative (Euler's four-square identity). *)
Lemma sumSquares_hamiltonFormula a b :
  sumSquares (hamiltonFormula a b) = sumSquares a * sumSquares b.
Proof. unfold sumSquares, hamiltonFormula. simpl. ring. Qed.

Lemma magnitude_hamiltonFormula a b :
  magnitude a = 1 -> magnitude b = 1 -> magnitude (hamiltonFormula a b) = 1.
Proof.
  rewrite !magnitude_one_iff, sumSquares_hamiltonFormula.
  intros -> ->. ring.
Qed.

Lemma pow2_ge_1 (n : nat) : 1 <= 2 ^ n.
Proof. apply pow_R1_Rle. lra. Qed.

(** The sums of squares from 1 to 32 are in the range of the doubles. *)
Lemma inDoubleRange_moderate (v : R) : 1 <= v <= 32 -> inDoubleRange v.
Proof.
  intros [Hlo Hhi]. unfold inDoubleRange.
  pose proof (pow2_ge_1 1022) as Hp.
  assert (Hinv : / 2 ^ 1022 <= 1).
  { rewrite <- Rinv_1. apply Rinv_le_contravar; lra. }
  assert (H32 : 32 <= 2 ^ 1023).
  { replace 32 with (2 ^ 5) by (simpl; lra).
    apply Rle_pow; [lra|]. apply Nat.leb_le. reflexivity. }
  lra.
Qed.

(** C6.  For every quaternion [q]: when [magnitude q] is exactly zero,
    [normalize q] is the identity vector (1,0,0,0); otherwise it is [q]
    with each component divided by [magnitude q]; and when the sum of the
    squares of the components is in the range of the doubles, [q] is not
    zero, its components are divided, and the output has magnitude 1. *)
Theorem normalize_spec q :
  (magnitude q = 0 -> normalize q = createQuaternion 1 0 0 0) /\
  (magnitude q <> 0 ->
   normalize q =
   createQuaternion (w q / magnitude q) (x q / magnitude q)
                    (y q / magnitude q) (z q / magnitude q)) /\
  (inDoubleRange (sumSquares q) ->
   magnitude q <> 0 /\ magnitude (normalize q) = 1).
Proof.
  split; [apply normalize_zero|].
  split; [apply normalize_nonzero|].
  intros [Hlo _]. split; [|apply magnitude_normalize].
  intros Hz. pose proof (magnitude_square q) as Hsq.
  rewrite Hz in Hsq.
  pose proof (pow2_ge_1 1022) as Hp.
  assert (0 < / 2 ^ 1022) by (apply Rinv_0_lt_compat; lra).
  lra.
Qed.

Lemma magnitude_3400 : magnitude (createQuaternion 3 4 0 0) = 5.
Proof.
  unfold magnitude. simpl.
  replace (3 * 3 + 4 * 4 + 0 * 0 + 0 * 0) with (5 * 5) by ring.
  apply sqrt_square. lra.
Qed.

(** [normalize] at the zero vector and at (3,4,0,0), of magnitude 5 and
    with the sum of squares 25. *)
Lemma normalize_spec_witness :
  normalize (createQuaternion 0 0 0 0) = createQuaternion 1 0 0 0 /\
  normalize (createQuaternion 3 4 0 0) = createQuaternion (3 / 5) (4 / 5) (0 / 5) (0 / 5) /\
  magnitude (normalize (createQuaternion 3 4 0 0)) = 1.
Proof.
  split; [|split].
  - apply (normalize_spec (createQuaternion 0 0 0 0)).
    apply magnitude_zero_iff. reflexivity.
  - rewrite <- magnitude_3400.
    apply (normalize_spec (createQuaternion 3 4 0 0)).
    rewrite magnitude_3400. lra.
  - apply (normalize_spec (createQuaternion 3 4 0 0)).
    apply inDoubleRange_moderate. unfold sumSquares. cbn [w x y z]. lra.
Defined.

(** C7.  [hamiltonProduct a b] is the normalized Hamilton formula, and
    for unit [a] and [b] its magnitude is 1 (the formula itself already
    has magnitude 1 there, so that normalizing leaves it unchanged). *)
Theorem hamiltonProduct_spec a b :
  hamiltonProduct a b = normalize (hamiltonFormula a b) /\
  (magnitude a = 1 -> magnitude b = 1 ->
   magnitude (hamiltonProduct a b) = 1 /\
   hamiltonProduct a b = hamiltonFormula a b).
Proof.
  split; [reflexivity|]. intros Ha Hb. split.
  - apply magnitude_normalize.
  - apply normalize_unit, magnitude_hamiltonFormula; assumption.
Qed.

(** Magnitude 1 of a quaternion with given components. *)
Ltac unit_magnitude :=
  apply magnitude_one_iff; unfold sumSquares; simpl; ring.

Lemma magnitude_1000 : magnitude (createQuaternion 1 0 0 0) = 1.
Proof. unit_magnitude. Qed.

Lemma magnitude_0100 : magnitude (createQuaternion 0 1 0 0) = 1.
Proof. unit_magnitude. Qed.

(** The product of the units 1 and i. *)
Lemma hamiltonProduct_spec_witness :
  magnitude (hamiltonProduct (createQuaternion 1 0 0 0)
                             (createQuaternion 0 1 0 0)) = 1 /\
  hamiltonProduct (createQuaternion 1 0 0 0) (createQuaternion 0 1 0 0) =
  hamiltonFormula (createQuaternion 1 0 0 0) (createQuaternion 0 1 0 0).
Proof.
  apply (hamiltonProduct_spec (createQuaternion 1 0 0 0)
                              (createQuaternion 0 1 0 0)).
  - exact magnitude_1000.
  - exact magnitude_0100.
Defined.

(** *** Spherical interpolation *)

Lemma magnitude_negate q : magnitude (negate q) = magnitude q.
Proof. unfold magnitude, negate. simpl. f_equal. ring. Qed.

Lemma quaternion_eq q w' x' y' z' :
  w' = w q -> x' = x q -> y' = y q -> z' = z q ->
  createQuaternion w' x' y' z' = q.
Proof. destruct q. simpl. now intros -> -> -> ->. Qed.

Lemma sin_acos_pos d : 0 <= d <= 0.9995 -> 0 < sin (acos d).
Proof.
  intros Hd. rewrite sin_acos by lra. apply sqrt_lt_R0.
  unfold Rsqr. nra.
Qed.

Lemma normalize_components q w' x' y' z' :
  magnitude q = 1 ->
  w' = w q -> x' = x q -> y' = y q -> z' = z q ->
  normalize (createQuaternion w' x' y' z') = q.
Proof.
  intros Hq Hw Hx Hy Hz. rewrite (quaternion_eq q) by assumption.
  now apply normalize_unit.
Qed.

Lemma slerp_start a b : magnitude a = 1 -> slerp a b 0 = a.
Proof.
  intros Ha. unfold slerp.
  destruct (decide (dot a b < 0)); simpl;
    (destruct (decide (_ > 0.9995));
     [ | rewrite Rmult_0_r, sin_0, cos_0 ]);
    apply normalize_components; trivial; unfold Rdiv; ring.
Qed.

(** The end point is [b] after the sign correction of the shorter path. *)
Lemma slerp_end a b :
  magnitude b = 1 ->
  slerp a b 1 = if decide (dot a b < 0) then negate b else b.
Proof.
  intros Hb. unfold slerp.
  destruct (decide (dot a b < 0)) as [Hneg|Hpos]; simpl.
  - fold (negate b).
    destruct (decide (- dot a b > 0.9995)) as [Hnear|Hfar].
    + apply normalize_components; simpl; try ring.
      now rewrite magnitude_negate.
    + assert (Hd : 0 <= - dot a b <= 0.9995) by lra.
      pose proof (sin_acos_pos _ Hd) as Hs.
      rewrite Rmult_1_r, cos_acos by lra.
      apply normalize_components; simpl;
        [now rewrite magnitude_negate | field; lra ..].
  - destruct (decide (dot a b > 0.9995)) as [Hnear|Hfar].
    + apply normalize_components; trivial; ring.
    + assert (Hd : 0 <= dot a b <= 0.9995) by lra.
      pose proof (sin_acos_pos _ Hd) as Hs.
      rewrite Rmult_1_r, cos_acos by lra.
      apply normalize_components; trivial; field; lra.
Qed.

Lemma magnitude_slerp a b t : magnitude (slerp a b t) = 1.
Proof.
  unfold slerp.
  destruct (decide (dot a b < 0)); simpl;
    destruct (decide (_ > 0.9995)); apply magnitude_normalize.
Qed.

(** C4, as the code has it.  For unit [a] and [b]: [slerp a b 0] is [a];
    [slerp a b 1] is [b] when [dot a b >= 0] and [-b] when [dot a b < 0];
    and [slerp a b t] has magnitude 1 for every [t] in [0,1]. *)
Theorem slerp_boundary a b t :
  magnitude a = 1 -> magnitude b = 1 -> 0 <= t <= 1 ->
  slerp a b 0 = a /\
  slerp a b 1 = (if decide (dot a b < 0) then negate b else b) /\
  magnitude (slerp a b t) = 1.
Proof.
  intros Ha Hb _. split; [now apply slerp_start|].
  split; [now apply slerp_end|]. apply magnitude_slerp.
Qed.

Lemma slerp_boundary_witness :
  slerp (createQuaternion 1 0 0 0) (createQuaternion 0 1 0 0) 0 =
    createQuaternion 1 0 0 0 /\
  slerp (createQuaternion 1 0 0 0) (createQuaternion 0 1 0 0) 1 =
    (if decide (dot (createQuaternion 1 0 0 0) (createQuaternion 0 1 0 0) < 0)
     then negate (createQuaternion 0 1 0 0) else createQuaternion 0 1 0 0) /\
  magnitude (slerp (createQuaternion 1 0 0 0) (createQuaternion 0 1 0 0) (1 / 2)) = 1.
Proof.
  apply (slerp_boundary (createQuaternion 1 0 0 0) (createQuaternion 0 1 0 0) (1 / 2)).
  - exact magnitude_1000.
  - exact magnitude_0100.
  - lra.
Defined.

(** C4, as stated, fails at the antipodal pair [a = (1,0,0,0)],
    [b = (-1,0,0,0)]: both are unit, [dot a b = -1 < 0], and
    [slerp a b 1] is [(1,0,0,0)], at distance 2 from [b]. *)
Lemma slerp_end_counterexample :
  magnitude (createQuaternion 1 0 0 0) = 1 /\
  magnitude (createQuaternion (-1) 0 0 0) = 1 /\
  slerp (createQuaternion 1 0 0 0) (createQuaternion (-1) 0 0 0) 1 =
    createQuaternion 1 0 0 0 /\
  w (slerp (createQuaternion 1 0 0 0) (createQuaternion (-1) 0 0 0) 1)
    - w (createQuaternion (-1) 0 0 0) = 2.
Proof.
  assert (Hb : magnitude (createQuaternion (-1) 0 0 0) = 1)
    by unit_magnitude.
  assert (Hs : slerp (createQuaternion 1 0 0 0) (createQuaternion (-1) 0 0 0) 1 =
               createQuaternion 1 0 0 0).
  { rewrite slerp_end by exact Hb.
    rewrite decide_True by (unfold dot; simpl; lra).
    unfold negate. simpl. f_equal; ring. }
  split; [exact magnitude_1000|]. split; [exact Hb|].
  split; [exact Hs|]. rewrite Hs. simpl. ring.
Qed.

End VectorAlgebra.

(** ** Similarity and entanglement *)

Section Similarity.

(** [new Set([...A].filter(x => B.has(x)))] is the intersection. *)
Lemma filter_has_intersection (A B : gset Z) :
  list_to_set (filter (λ v, v ∈ B) (elements A)) = A ∩ B.
Proof.
  apply set_eq. intros v.
  rewrite elem_of_list_to_set, list_elem_of_filter, elem_of_elements.
  set_solver.
Qed.

(** [new Set([...A, ...B])] is the union. *)
Lemma spread_union (A B : gset Z) : list_to_set (elements A ++ elements B) = A ∪ B.
Proof. now rewrite list_to_set_app_L, !list_to_set_elements_L. Qed.

Lemma intersection_self (A : gset Z) : A ∩ A = A.
Proof. set_solver. Qed.

Lemma union_self (A : gset Z) : A ∪ A = A.
Proof. set_solver. Qed.

Lemma size_list_to_set_cons (p : Z) (l : list Z) :
  size (list_to_set (p :: l) : gset Z) <> 0%nat.
Proof. apply size_non_empty_iff. set_solver. Qed.

Lemma jaccardSimilarity_self (sig : list Z) :
  sig <> [] -> jaccardSimilarity sig sig = 1.
Proof.
  intros Hsig. destruct sig as [|p l]; [done|]. clear Hsig.
  unfold jaccardSimilarity.
  rewrite filter_has_intersection, spread_union.
  rewrite intersection_self, union_self.
  pose proof (size_list_to_set_cons p l) as Hsz.
  rewrite decide_False by exact Hsz.
  apply Rinv_r. now apply not_0_INR.
Qed.

Lemma jaccardSimilarity_empty : jaccardSimilarity [] [] = 0.
Proof. reflexivity. Qed.

(** C9.  Entanglement strength is symmetric. *)
Theorem entanglementStrength_symmetric (a b : Encoded) :
  entanglementStrength a b = entanglementStrength b a.
Proof.
  unfold entanglementStrength.
  rewrite !filter_has_intersection.
  rewrite (dot_comm (quaternion a)), Nat.max_comm.
  now rewrite (comm_L (∩) (list_to_set (primeSignature a))).
Qed.

Lemma entanglementStrength_self_empty (m : Encoded) :
  primeSignature m = [] ->
  entanglementStrength m m = 0.5 * Rabs (dot (quaternion m) (quaternion m)).
Proof.
  intros Hsig. unfold entanglementStrength.
  rewrite filter_has_intersection, Hsig, intersection_self, Nat.max_id.
  change (list_to_set []) with (∅ : gset Z).
  rewrite size_empty, decide_True by done. ring.
Qed.

Lemma entanglementStrength_self_nonempty (m : Encoded) :
  magnitude (quaternion m) = 1 -> primeSignature m <> [] ->
  entanglementStrength m m = 1.
Proof.
  intros Hq Hsig. unfold entanglementStrength.
  rewrite filter_has_intersection, Nat.max_id, dot_self, Hq.
  destruct (primeSignature m) as [|p l]; [done|]. clear Hsig.
  rewrite intersection_self.
  pose proof (size_list_to_set_cons p l) as Hsz.
  rewrite decide_False by exact Hsz.
  rewrite Rmult_1_r, Rabs_R1.
  unfold Rdiv. rewrite Rinv_r by now apply not_0_INR. lra.
Qed.

(** C2, as the code has it.  For every memory whose quaternion is unit,
    the strength against itself is exactly 1 when its prime signature is
    not empty, and 0.5 when it is empty. *)
Theorem entanglementStrength_self (m : Encoded) :
  magnitude (quaternion m) = 1 ->
  (primeSignature m <> [] -> entanglementStrength m m = 1) /\
  (primeSignature m = [] -> entanglementStrength m m = 0.5).
Proof.
  intros Hq. split.
  - now apply entanglementStrength_self_nonempty.
  - intros Hsig. rewrite entanglementStrength_self_empty by exact Hsig.
    rewrite dot_self, Hq. replace (1 * 1) with 1 by ring.
    rewrite Rabs_R1. lra.
Qed.

Lemma entanglementStrength_self_witness :
  entanglementStrength (mkEncoded (createQuaternion 1 0 0 0) [2%Z; 3%Z])
                       (mkEncoded (createQuaternion 1 0 0 0) [2%Z; 3%Z]) = 1 /\
  entanglementStrength (mkEncoded (createQuaternion 0 1 0 0) [])
                       (mkEncoded (createQuaternion 0 1 0 0) []) = 0.5.
Proof.
  split.
  - apply (entanglementStrength_self
             (mkEncoded (createQuaternion 1 0 0 0) [2%Z; 3%Z])).
    + exact magnitude_1000.
    + simpl. discriminate.
  - apply (entanglementStrength_self
             (mkEncoded (createQuaternion 0 1 0 0) [])).
    + exact magnitude_0100.
    + reflexivity.
Defined.

(** C2, as stated, fails for a memory with an empty prime signature: the
    overlap term is 0 and the strength of the unit quaternion (1,0,0,0)
    against itself is 0.5.  It also fails for a quaternion that is not
    unit: (2,0,0,0) with signature [2] gives 2.5. *)
Lemma entanglementStrength_self_counterexample :
  entanglementStrength (mkEncoded (createQuaternion 1 0 0 0) [])
                       (mkEncoded (createQuaternion 1 0 0 0) []) = 0.5 /\
  entanglementStrength (mkEncoded (createQuaternion 2 0 0 0) [2%Z])
                       (mkEncoded (createQuaternion 2 0 0 0) [2%Z]) = 2.5.
Proof.
  split.
  - rewrite entanglementStrength_self_empty by reflexivity.
    unfold dot. simpl.
    replace (1 * 1 + 0 * 0 + 0 * 0 + 0 * 0) with 1 by ring.
    rewrite Rabs_R1. lra.
  - unfold entanglementStrength.
    rewrite filter_has_intersection, intersection_self, Nat.max_id.
    cbn [primeSignature quaternion].
    change (list_to_set [2%Z]) with ({[2%Z]} ∪ ∅ : gset Z).
    rewrite union_empty_r_L, size_singleton, decide_False by done.
    unfold dot. simpl.
    replace (2 * 2 + 0 * 0 + 0 * 0 + 0 * 0) with 4 by ring.
    rewrite Rabs_right by lra. lra.
Qed.

End Similarity.

(** ** Text encoder *)

Lemma spreadSet_nonempty (l : list Z) : l <> [] -> spreadSet ∅ l <> [].
Proof.
  destruct l as [|p l']; [done|]. intros _. simpl.
  rewrite decide_False by set_solver. discriminate.
Qed.

Lemma encodeChars_signature_nonempty (chars : jsstring) :
  chars <> [] -> primeSignature (encodeChars chars) <> [].
Proof.
  intros Hc. unfold encodeChars. simpl. apply spreadSet_nonempty.
  intros Hnil. apply (f_equal length) in Hnil.
  rewrite length_imap in Hnil. destruct chars; [done|discriminate].
Qed.

Lemma encodeChars_unit (chars : jsstring) :
  magnitude (quaternion (encodeChars chars)) = 1.
Proof. apply magnitude_normalize. Qed.

Lemma encodeChars_empty :
  encodeChars [] = mkEncoded (createQuaternion 1 0 0 0) [].
Proof.
  unfold encodeChars. simpl. f_equal.
  apply normalize_zero, magnitude_zero_iff. f_equal; lra.
Qed.

Lemma resonanceScore_empty :
  resonanceScoreDefault (encodeChars []) (encodeChars []) = 0.5.
Proof.
  rewrite encodeChars_empty. unfold resonanceScoreDefault, resonanceScore.
  cbn [primeSignature quaternion].
  rewrite jaccardSimilarity_empty, dot_self, magnitude_1000.
  replace (1 * 1) with 1 by ring. rewrite Rabs_R1. lra.
Qed.

Lemma asciiLower_upper_hello :
  asciiLower [72; 69; 76; 76; 79]%Z = asciiLower [104; 101; 108; 108; 111]%Z.
Proof. reflexivity. Qed.

Lemma asciiLower_asciiUpper (s : jsstring) :
  asciiLower (asciiUpper s) = asciiLower s.
Proof.
  unfold asciiLower, asciiUpper. rewrite <- list_fmap_compose.
  apply list_fmap_ext. intros _ c _. simpl.
  repeat case_decide; lia.
Qed.

(** On ASCII text the encoder does not see the case of the letters. *)
Lemma encodeText_asciiUpper (s : jsstring) :
  encodeText asciiLower (asciiUpper s) = encodeText asciiLower s.
Proof. unfold encodeText. now rewrite asciiLower_asciiUpper. Qed.

(** The working sequence of "hello": h, e, l, l, o at positions 0..4. *)
Example primeSignature_hello :
  primeSignature (encodeText asciiLower [72; 69; 76; 76; 79]%Z) =
  [11; 5; 31; 37; 53]%Z.
Proof. reflexivity. Qed.

(** A repeated prime is kept once: the code units 97, 97, 96 at positions
    0, 1, 2 select the indices 97, 98, 98. *)
Example primeSignature_repeated :
  imap primeAt [97; 97; 96]%Z = [521; 523; 523]%Z /\
  primeSignature (encodeText asciiLower [97; 97; 96]%Z) = [521; 523]%Z.
Proof. split; reflexivity. Qed.

Section EncoderFacts.

Variable toLowerCase : jsstring -> jsstring.

(** C1, as the code has it.  With the default weights, the resonance of
    the encoding of a text against itself is 1 when the lowercase form of
    the text is not empty (for a JavaScript string: when the text is not
    empty), and 0.5 when it is empty. *)
Theorem resonanceScore_self (s : jsstring) :
  (toLowerCase s <> [] ->
   resonanceScoreDefault (encodeText toLowerCase s)
                         (encodeText toLowerCase s) = 1) /\
  (toLowerCase s = [] ->
   resonanceScoreDefault (encodeText toLowerCase s)
                         (encodeText toLowerCase s) = 0.5).
Proof.
  unfold encodeText. split.
  - intros Hs. unfold resonanceScoreDefault, resonanceScore.
    rewrite jaccardSimilarity_self
      by now apply encodeChars_signature_nonempty.
    rewrite dot_self, encodeChars_unit.
    replace (1 * 1) with 1 by ring. rewrite Rabs_R1. lra.
  - intros ->. apply resonanceScore_empty.
Qed.

End EncoderFacts.

(** *** Case variants *)










(** "HELLO" and "hello", as in the test suite. *)

(** The text "hi", and the empty text. *)
Lemma resonanceScore_self_witness :
  resonanceScoreDefault (encodeText asciiLower [104; 105]%Z)
                        (encodeText asciiLower [104; 105]%Z) = 1 /\
  resonanceScoreDefault (encodeText asciiLower [])
                        (encodeText asciiLower []) = 0.5.
Proof.
  split.
  - apply (resonanceScore_self asciiLower [104; 105]%Z).
    simpl. discriminate.
  - apply (resonanceScore_self asciiLower []).
    reflexivity.
Defined.

(** C1, as stated, fails at the empty text: its signature is empty, so
    the Jaccard term is 0, its quaternion is (1,0,0,0), and the score with
    the default weights is 0.5. *)
Lemma resonanceScore_self_counterexample :
  encodeText asciiLower [] = mkEncoded (createQuaternion 1 0 0 0) [] /\
  resonanceScoreDefault (encodeText asciiLower []) (encodeText asciiLower []) = 0.5.
Proof.
  split.
  - unfold encodeText. simpl. apply encodeChars_empty.
  - unfold encodeText. simpl. apply resonanceScore_empty.
Qed.

(** ** Field metrics: entropy *)

Section Entropy.

Lemma ln_le_pred (v : R) : 0 < v -> ln v <= v - 1.
Proof.
  intros Hv. pose proof (exp_ineq1_le (ln v)) as H.
  rewrite exp_ln in H by exact Hv. lra.
Qed.

Lemma ln_2_pos : 0 < ln 2.
Proof. rewrite <- ln_1. apply ln_increasing; lra. Qed.

(** One term of Gibbs' inequality: [-p ln p <= p ln k + 1/k - p]. *)
Lemma gibbs_term (p k : R) :
  0 < p -> 0 < k -> - (p * ln p) <= p * ln k + / k - p.
Proof.
  intros Hp Hk.
  assert (Hpk : 0 < p * k) by now apply Rmult_lt_0_compat.
  pose proof (ln_le_pred (/ (p * k)) (Rinv_0_lt_compat _ Hpk)) as H.
  rewrite ln_Rinv, ln_mult in H by assumption.
  apply (Rmult_le_compat_l p) in H; [|lra].
  replace (p * (/ (p * k) - 1)) with (/ k - p) in H by (field; lra).
  lra.
Qed.

Lemma entropyOf_cons (total count : nat) (counts : list nat) :
  (1 <= count)%nat -> (0 < total)%nat ->
  entropyOf total (count :: counts) =
  entropyOf total counts
  - INR count / INR total * log2 (INR count / INR total).
Proof.
  intros Hc Ht. unfold entropyOf at 1. simpl. fold (entropyOf total counts).
  rewrite decide_True; [reflexivity|].
  apply Rlt_gt, Rdiv_lt_0_compat; apply lt_0_INR; lia.
Qed.

Lemma entropyOf_nonneg (total : nat) (counts : list nat) :
  (0 < total)%nat -> Forall (λ c, 1 <= c <= total)%nat counts ->
  0 <= entropyOf total counts.
Proof.
  intros Ht. induction 1 as [|c cs [Hc1 Hc2] _ IH]; [simpl; lra|].
  rewrite entropyOf_cons by assumption.
  assert (HT : 0 < INR total) by (apply lt_0_INR; lia).
  assert (Hp : 0 < INR c / INR total)
    by (apply Rdiv_lt_0_compat; [apply lt_0_INR; lia|exact HT]).
  assert (Hp1 : INR c / INR total <= 1).
  { pose proof (Rinv_0_lt_compat _ HT) as Hinv.
    pose proof (le_INR _ _ Hc2) as Hle.
    apply (Rmult_le_compat_r (/ INR total)) in Hle; [|lra].
    rewrite Rinv_r in Hle by lra. exact Hle. }
  assert (Hln : ln (INR c / INR total) <= 0).
  { pose proof (ln_le_pred _ Hp). lra. }
  unfold log2. pose proof ln_2_pos.
  assert (0 <= INR c / INR total * (- ln (INR c / INR total) / ln 2)).
  { apply Rmult_le_pos; [lra|].
    apply Rmult_le_pos; [lra|]. left. now apply Rinv_0_lt_compat. }
  unfold Rdiv in *. lra.
Qed.

Lemma log2_ln (v : R) : log2 v * ln 2 = ln v.
Proof. unfold log2. field. pose proof ln_2_pos. lra. Qed.

(** Gibbs' inequality, summed over the counts. *)
Lemma entropyOf_upper (total : nat) (counts : list nat) (k : R) :
  (0 < total)%nat -> 0 < k -> Forall (λ c, 1 <= c)%nat counts ->
  entropyOf total counts * ln 2 <=
  INR (sum_list counts) / INR total * ln k
  + INR (length counts) / k - INR (sum_list counts) / INR total.
Proof.
  intros Ht Hk. induction 1 as [|c cs Hc _ IH].
  - simpl. unfold Rdiv. lra.
  - rewrite entropyOf_cons by assumption.
    cbn [sum_list sum_list_with length].
    rewrite plus_INR, S_INR.
    assert (HT : 0 < INR total) by (apply lt_0_INR; lia).
    assert (Hp : 0 < INR c / INR total)
      by (apply Rdiv_lt_0_compat; [apply lt_0_INR; lia|exact HT]).
    pose proof (gibbs_term _ _ Hp Hk) as Hg.
    rewrite Rmult_minus_distr_r, Rmult_assoc, log2_ln.
    change (Datatypes.id c) with c.
    unfold Rdiv in *. lra.
Qed.

Lemma sum_list_bound (counts : list nat) :
  Forall (λ c, c <= sum_list counts)%nat counts.
Proof.
  induction counts as [|c cs IH]; [constructor|].
  cbn [sum_list sum_list_with]. change (Datatypes.id c) with c.
  constructor; [lia|].
  eapply Forall_impl; [exact IH|]. simpl. lia.
Qed.

(** The value of the entropy quotient for a table of positive counts. *)
Lemma entropy_quotient_bounds (counts : list nat) :
  Forall (λ c, 1 <= c)%nat counts -> (0 < sum_list counts)%nat ->
  log2 (INR (length counts)) <> 0 ->
  0 <= entropyOf (sum_list counts) counts / log2 (INR (length counts)) <= 1.
Proof.
  intros Hpos Ht Hmax.
  assert (Hlen : (1 <= length counts)%nat).
  { destruct counts; [simpl in Ht; lia|simpl; lia]. }
  assert (Hk : 1 <= INR (length counts)) by (change 1 with (INR 1); now apply le_INR).
  pose proof ln_2_pos as H2.
  assert (Hlnk : 0 <= ln (INR (length counts))).
  { rewrite <- ln_1. destruct Hk as [Hk| <-]; [|lra].
    left. apply ln_increasing; lra. }
  assert (Hlog : 0 < log2 (INR (length counts))).
  { assert (0 <= log2 (INR (length counts))).
    { unfold log2. apply Rmult_le_pos; [lra|]. left. now apply Rinv_0_lt_compat. }
    lra. }
  assert (Hlo : 0 <= entropyOf (sum_list counts) counts).
  { apply entropyOf_nonneg; [exact Ht|].
    pose proof (sum_list_bound counts) as Hb.
    rewrite Forall_forall in *. intros c Hc. split; auto. }
  pose proof (entropyOf_upper (sum_list counts) counts (INR (length counts)) Ht) as Hup.
  specialize (Hup ltac:(lra) Hpos).
  assert (HT : 0 < INR (sum_list counts)) by (apply lt_0_INR; lia).
  replace (INR (sum_list counts) / INR (sum_list counts)) with 1 in Hup
    by (field; lra).
  replace (INR (length counts) / INR (length counts)) with 1 in Hup
    by (field; lra).
  rewrite <- (log2_ln (INR (length counts))) in Hup.
  assert (Hle : entropyOf (sum_list counts) counts <= log2 (INR (length counts))).
  { apply (Rmult_le_reg_r (ln 2)); [exact H2|]. lra. }
  split.
  - apply Rmult_le_pos; [exact Hlo|]. left. now apply Rinv_0_lt_compat.
  - apply (Rmult_le_reg_r (log2 (INR (length counts)))); [exact Hlog|].
    unfold Rdiv. rewrite Rmult_assoc, Rinv_l by lra. lra.
Qed.

(** *** The frequency table *)

Lemma sumCounts_insert (m : gmap Z nat) (k : Z) (c : nat) :
  m !! k = None -> sumCounts (<[k:=c]> m) = (c + sumCounts m)%nat.
Proof.
  intros Hk. unfold sumCounts.
  apply (map_fold_insert_L (λ _ count s, (count + s)%nat) 0%nat k c m);
    [|exact Hk].
  intros; lia.
Qed.

Lemma sumCounts_delete (m : gmap Z nat) (k : Z) (c : nat) :
  m !! k = Some c -> sumCounts m = (c + sumCounts (delete k m))%nat.
Proof.
  intros Hk. unfold sumCounts.
  apply (map_fold_delete_L (λ _ count s, (count + s)%nat) 0%nat k c m);
    [|exact Hk].
  intros; lia.
Qed.

Lemma sumCounts_to_list (m : gmap Z nat) :
  sumCounts m = sum_list (map_to_list m).*2.
Proof.
  unfold sumCounts. rewrite map_fold_foldr.
  induction (map_to_list m) as [|[k c] l IH]; [reflexivity|].
  simpl. now rewrite IH.
Qed.

Lemma entropy_to_list (m : gmap Z nat) (total : nat) :
  map_fold (λ (_ : Z) count entropy,
              let p := INR count / INR total in
              if decide (p > 0) then entropy - p * log2 p else entropy) 0 m
  = entropyOf total (map_to_list m).*2.
Proof.
  rewrite map_fold_foldr. unfold entropyOf.
  induction (map_to_list m) as [|[k c] l IH]; [reflexivity|].
  simpl. now rewrite IH.
Qed.

Lemma counted_countPrime st prime : counted st -> counted (countPrime st prime).
Proof.
  destruct st as [m t]. intros [Hsum Hpos]. simpl in *.
  unfold counted, countPrime. simpl. split.
  - destruct (m !! prime) as [c|] eqn:Hl; simpl.
    + rewrite <- insert_delete_eq, sumCounts_insert by apply lookup_delete_eq.
      rewrite (sumCounts_delete _ _ _ Hl) in Hsum. lia.
    + rewrite sumCounts_insert by exact Hl. lia.
  - apply map_Forall_insert_2; [lia|exact Hpos].
Qed.

Lemma counted_countMemory st mem : counted st -> counted (countMemory st mem).
Proof.
  unfold countMemory. revert st.
  induction (Memory.primeSignature mem) as [|p l IH]; intros st Hst;
    [exact Hst|].
  simpl. apply IH, counted_countPrime, Hst.
Qed.

Lemma counted_fold memories st :
  counted st -> counted (foldl countMemory st memories).
Proof.
  revert st. induction memories as [|mem ms IH]; intros st Hst; [exact Hst|].
  simpl. apply IH, counted_countMemory, Hst.
Qed.

Lemma total_countMemory st mem :
  (countMemory st mem).2 = (st.2 + length (Memory.primeSignature mem))%nat.
Proof.
  unfold countMemory. revert st.
  induction (Memory.primeSignature mem) as [|p l IH]; intros st; simpl;
    [lia|].
  rewrite IH. simpl. lia.
Qed.

Lemma total_fold memories st :
  (foldl countMemory st memories).2 =
  (st.2 + length (allEntries memories))%nat.
Proof.
  unfold allEntries. revert st.
  induction memories as [|mem ms IH]; intros st; [simpl; lia|].
  rewrite fmap_cons. cbn [foldl concat].
  rewrite IH, total_countMemory, length_app. lia.
Qed.

(** *** The table holds the frequencies *)

Lemma countMemory_entries memories st :
  foldl countMemory st memories = foldl countPrime st (allEntries memories).
Proof.
  unfold allEntries. revert st.
  induction memories as [|mem ms IH]; intros st; [reflexivity|].
  rewrite fmap_cons. cbn [foldl concat]. now rewrite foldl_app, IH.
Qed.

Lemma frequency_cons (k p : Z) (l : list Z) :
  frequency k (p :: l) =
  ((if decide (p = k) then 1 else 0) + frequency k l)%nat.
Proof.
  unfold frequency. rewrite filter_cons.
  now destruct (decide (p = k)).
Qed.

Lemma countPrime_lookup st (p k : Z) :
  default 0%nat ((countPrime st p).1 !! k) =
  (default 0%nat (st.1 !! k) + (if decide (p = k) then 1 else 0))%nat.
Proof.
  unfold countPrime. simpl. rewrite lookup_insert.
  destruct (decide (p = k)) as [->|Hne]; simpl; lia.
Qed.

Lemma countPrime_fold_lookup (l : list Z) st (k : Z) :
  default 0%nat ((foldl countPrime st l).1 !! k) =
  (default 0%nat (st.1 !! k) + frequency k l)%nat.
Proof.
  revert st. induction l as [|p l IH]; intros st.
  - unfold frequency. simpl. lia.
  - cbn [foldl]. rewrite IH, countPrime_lookup, frequency_cons. lia.
Qed.

Lemma frequency_pos (k : Z) (l : list Z) : (1 <= frequency k l)%nat <-> k ∈ l.
Proof.
  unfold frequency. split.
  - intros Hf. destruct (filter (λ v, v = k) l) as [|v l'] eqn:Hfl;
      [simpl in Hf; lia|].
    assert (Hv : v ∈ filter (λ v, v = k) l) by (rewrite Hfl; now left).
    apply list_elem_of_filter in Hv as [-> Hv]. exact Hv.
  - intros Hk.
    assert (Hv : k ∈ filter (λ v, v = k) l)
      by (apply list_elem_of_filter; now split).
    destruct (filter (λ v, v = k) l); [inversion Hv|simpl; lia].
Qed.

Lemma table_counted (entries : list Z) : map_Forall (λ _ c, 1 <= c)%nat (tableOf entries).
Proof.
  assert (Hc : counted (foldl countPrime (∅, 0%nat) entries)).
  { assert (Hgen : ∀ st, counted st -> counted (foldl countPrime st entries)).
    { clear. induction entries as [|p l IH]; intros st Hst; [exact Hst|].
      simpl. apply IH, counted_countPrime, Hst. }
    apply Hgen. split; [reflexivity|apply map_Forall_empty]. }
  apply Hc.
Qed.

Lemma table_lookup (entries : list Z) (k : Z) (c : nat) :
  tableOf entries !! k = Some c -> c = frequency k entries /\ (1 <= c)%nat.
Proof.
  intros Hk. pose proof (countPrime_fold_lookup entries (∅, 0%nat) k) as Hf.
  fold (tableOf entries) in Hf. rewrite Hk in Hf. simpl in Hf.
  split; [exact Hf|]. exact (table_counted entries k c Hk).
Qed.

Lemma table_keys (entries : list Z) : (map_to_list (tableOf entries)).*1 ≡ₚ distinctPrimes entries.
Proof.
  apply NoDup_Permutation.
  - apply NoDup_fst_map_to_list.
  - unfold distinctPrimes. apply NoDup_elements.
  - intros k. unfold distinctPrimes.
    rewrite elem_of_elements, elem_of_list_to_set, list_elem_of_fmap.
    split.
    + intros ([k' c] & -> & Hkc). apply elem_of_map_to_list in Hkc.
      apply table_lookup in Hkc as [-> Hc]. now apply frequency_pos.
    + intros Hf. apply frequency_pos in Hf.
      pose proof (countPrime_fold_lookup entries (∅, 0%nat) k) as Hl.
      fold (tableOf entries) in Hl. simpl in Hl.
      destruct (tableOf entries !! k) as [c|] eqn:Hk; [|simpl in Hl; lia].
      exists (k, c). split; [reflexivity|]. now apply elem_of_map_to_list.
Qed.

Lemma table_size (entries : list Z) : size (tableOf entries) = length (distinctPrimes entries).
Proof.
  now rewrite <- table_keys, length_fmap, length_map_to_list.
Qed.

Lemma shannon_perm (g : Z -> R) (l l' : list Z) :
  l ≡ₚ l' ->
  foldr (λ k acc, acc - g k) 0 l = foldr (λ k acc, acc - g k) 0 l'.
Proof.
  induction 1 as [|a l l' _ IH|a b l|l l' l'' _ IH _ IH']; simpl.
  - reflexivity.
  - now rewrite IH.
  - ring.
  - now rewrite IH.
Qed.

Lemma table_entropy (entries : list Z) :
  entries <> [] ->
  entropyOf (length entries) (map_to_list (tableOf entries)).*2 = shannon entries.
Proof.
  intros Hne. unfold shannon. rewrite <- (shannon_perm _ _ _ (table_keys entries)).
  assert (Hall : Forall (λ kc, tableOf entries !! kc.1 = Some kc.2) (map_to_list (tableOf entries))).
  { apply Forall_forall. intros [k c] Hkc. now apply elem_of_map_to_list. }
  assert (Hlen : (0 < length entries)%nat)
    by (destruct entries; [done|simpl; lia]).
  induction Hall as [|[k c] l Hkc _ IH]; [reflexivity|].
  rewrite !fmap_cons. cbn [fst snd] in Hkc |- *.
  apply table_lookup in Hkc as [Hc Hpos].
  rewrite entropyOf_cons by assumption. cbn [foldr].
  rewrite IH. now subst c.
Qed.

(** The loops of [calculateEntropy] compute the metric of the
    specification. *)
Lemma calculateEntropy_spec (memories : list Memory.t) :
  calculateEntropy memories = entropySpec memories.
Proof.
  unfold calculateEntropy, entropySpec.
  destruct (decide (length memories = 0%nat)) as [Hz|Hnz].
  { apply nil_length_inv in Hz. now subst. }
  pose proof (total_fold memories (∅, 0%nat)) as Htot.
  rewrite countMemory_entries in Htot |- *.
  set (entries := allEntries memories) in *.
  pose proof (table_size entries) as Hsize.
  pose proof (table_entropy entries) as Hent.
  unfold tableOf in Hsize, Hent.
  destruct (foldl countPrime (∅, 0%nat) entries) as [m t].
  simpl in Htot, Hsize, Hent. subst t.
  destruct (decide (length entries = 0%nat)) as [|Hlen]; [reflexivity|].
  assert (Hne : entries <> []) by (intros Hnil; now rewrite Hnil in Hlen).
  assert (Hk : length (distinctPrimes entries) <> 0%nat).
  { unfold distinctPrimes. destruct entries as [|p l]; [done|].
    apply size_list_to_set_cons. }
  rewrite entropy_to_list, Hent, Hsize by exact Hne.
  now rewrite (decide_False (P := length (distinctPrimes entries) = 0%nat)).
Qed.

(** In exact arithmetic the entropy metric is 0 on the empty collection
    and whenever the signatures hold no entry at all, and its value
    always lies in [0,1]: it is the Shannon entropy of the frequency
    distribution of the primes divided by [log2] of the number of distinct
    primes, and 0 when that maximum entropy is 0. *)
Theorem calculateEntropy_bounds (memories : list Memory.t) :
  (memories = [] -> calculateEntropy memories = 0) /\
  (length (allEntries memories) = 0%nat -> calculateEntropy memories = 0) /\
  0 <= calculateEntropy memories <= 1 /\
  calculateEntropy memories = entropySpec memories.
Proof.
  pose proof (total_fold memories (∅, 0%nat)) as Htot.
  assert (Hinv : counted (foldl countMemory (∅, 0%nat) memories)).
  { apply counted_fold. split; [reflexivity|apply map_Forall_empty]. }
  split; [|split; [|split; [|apply calculateEntropy_spec]]];
    unfold calculateEntropy;
    destruct (foldl countMemory (∅, 0%nat) memories) as [m t];
    destruct Hinv as [Hsum Hpos]; simpl in Htot, Hsum, Hpos.
  - intros ->. reflexivity.
  - intros Hz. destruct (decide (length memories = 0%nat)); [reflexivity|].
    rewrite decide_True by lia. reflexivity.
  - destruct (decide (length memories = 0%nat)); [lra|].
    destruct (decide (t = 0%nat)) as [|Ht]; [lra|].
    destruct (decide (_ = 0)) as [|Hmax]; [lra|].
    rewrite entropy_to_list.
    rewrite sumCounts_to_list in Hsum.
    assert (Hsize : size m <> 0%nat).
    { intros Hz. apply map_size_empty_inv in Hz. subst m.
      rewrite map_to_list_empty in Hsum. simpl in Hsum. lia. }
    rewrite decide_False in Hmax |- * by exact Hsize.
    rewrite <- length_map_to_list, <- (length_fmap snd), <- Hsum in *.
    apply entropy_quotient_bounds; [|lia|exact Hmax].
    apply map_Forall_to_list in Hpos.
    rewrite Forall_fmap. eapply Forall_impl; [exact Hpos|].
    now intros [k c].
Qed.

(** The empty collection, and one memory with an empty signature. *)
Lemma calculateEntropy_bounds_witness :
  calculateEntropy [] = 0 /\
  calculateEntropy
    [Memory.make [] [] (createQuaternion 1 0 0 0) [] 0] = 0.
Proof.
  split.
  - exact (proj1 (calculateEntropy_bounds []) eq_refl).
  - exact (proj1 (proj2 (calculateEntropy_bounds
             [Memory.make [] [] (createQuaternion 1 0 0 0) [] 0])) eq_refl).
Defined.

End Entropy.

(** ** Clustering *)

Section Clustering.

Variable results : list SearchResult.
Variable threshold : R.

Lemma filter_ext_in {A} (P Q : A -> Prop) `{!∀ a, Decision (P a)}
    `{!∀ a, Decision (Q a)} (l : list A) :
  (∀ a, a ∈ l -> P a <-> Q a) -> filter P l = filter Q l.
Proof.
  induction l as [|a l IH]; intros Hext; [reflexivity|].
  rewrite !filter_cons.
  rewrite IH by (intros b Hb; apply Hext; now right).
  assert (Ha : P a <-> Q a) by (apply Hext; now left).
  destruct (decide (P a)), (decide (Q a)); try reflexivity; tauto.
Qed.

Lemma entriesFrom_cons i r rs :
  entriesFrom i (r :: rs) = (i, r) :: entriesFrom (S i) rs.
Proof.
  unfold entriesFrom. rewrite imap_cons. f_equal.
  - f_equal. lia.
  - apply imap_ext. intros k r' _. simpl. f_equal. lia.
Qed.

Lemma elem_of_entriesFrom i rs (e : nat * SearchResult) :
  e ∈ entriesFrom i rs <-> ∃ k, e.1 = (i + k)%nat /\ rs !! k = Some e.2.
Proof.
  unfold entriesFrom. rewrite elem_of_lookup_imap. split.
  - intros (k & r & -> & Hk). now exists k.
  - intros (k & Hk1 & Hk2). exists k, e.2. split; [|exact Hk2].
    destruct e as [j r]. simpl in *. now subst.
Qed.

(** Positions identify entries. *)
Lemma entriesFrom_inj i rs (e e' : nat * SearchResult) :
  e ∈ entriesFrom i rs -> e' ∈ entriesFrom i rs -> e.1 = e'.1 -> e = e'.
Proof.
  rewrite !elem_of_entriesFrom. intros (k & Hk & Hr) (k' & Hk' & Hr') Heq.
  assert (k = k') by lia. subst k'.
  destruct e, e'. simpl in *. congruence.
Qed.

Lemma pendingFrom_cons i r rs (assigned : gset nat) :
  pendingFrom i (r :: rs) assigned =
  if decide (i ∈ assigned) then pendingFrom (S i) rs assigned
  else (i, r) :: pendingFrom (S i) rs assigned.
Proof.
  unfold pendingFrom. rewrite entriesFrom_cons, filter_cons. simpl.
  destruct (decide (i ∈ assigned)), (decide (i ∉ assigned));
    try reflexivity; contradiction.
Qed.

(** Marking a position in front of the range changes nothing in it. *)
Lemma pendingFrom_mark i rs (assigned : gset nat) :
  pendingFrom (S i) rs ({[i]} ∪ assigned) = pendingFrom (S i) rs assigned.
Proof.
  unfold pendingFrom. apply filter_ext_in. intros e He.
  apply elem_of_entriesFrom in He as (k & Hk & _).
  rewrite not_elem_of_union, not_elem_of_singleton. intuition lia.
Qed.

(** After a scan, the pending entries are those that were pending and are
    not linked to the seed. *)
Lemma pendingFrom_absorbed i rs (assigned : gset nat)
    (P : nat * SearchResult -> Prop) `{!∀ e, Decision (P e)} :
  pendingFrom i rs
    (assigned ∪ list_to_set (filter P (pendingFrom i rs assigned)).*1)
  = filter (λ e, ¬ P e) (pendingFrom i rs assigned).
Proof.
  unfold pendingFrom. rewrite (list_filter_filter (λ e, ¬ P e)).
  apply filter_ext_in. intros e He.
  rewrite not_elem_of_union, elem_of_list_to_set, list_elem_of_fmap.
  split.
  - intros [Hna Hnl]. split; [|exact Hna]. intros HP. apply Hnl.
    exists e. split; [reflexivity|].
    apply list_elem_of_filter. split; [exact HP|].
    apply list_elem_of_filter. now split.
  - intros [HnP Hna]. split; [exact Hna|].
    intros (e' & Heq & He'). apply list_elem_of_filter in He' as [HP He'].
    apply list_elem_of_filter in He' as [_ He'].
    apply HnP. now rewrite (entriesFrom_inj i rs e e' He He' Heq).
Qed.

Lemma scanStep_at seed cluster (assigned : gset nat) j rj :
  results !! j = Some rj ->
  scanStep results threshold seed (cluster, assigned) j =
  if decide (j ∈ assigned) then (cluster, assigned)
  else if decide (entangled threshold seed rj)
       then (cluster ++ [rj], {[j]} ∪ assigned)
       else (cluster, assigned).
Proof. intros Hj. unfold scanStep. simpl. now rewrite Hj. Qed.

(** The inner loop started at position [j0], where [rs] are the results
    from there on: it appends the pending results linked to the seed, in
    order, and marks their positions. *)
Lemma scan_spec (seed : nat * SearchResult) rs :
  ∀ j0 cluster (assigned : gset nat),
    (∀ k, results !! (j0 + k)%nat = rs !! k) ->
    foldl (scanStep results threshold seed.2) (cluster, assigned)
          (seq j0 (length rs)) =
    (cluster
       ++ (filter (entangledEntries threshold seed)
                  (pendingFrom j0 rs assigned)).*2,
     assigned
       ∪ list_to_set (filter (entangledEntries threshold seed)
                             (pendingFrom j0 rs assigned)).*1).
Proof.
  induction rs as [|r rs IH]; intros j0 cluster assigned Hres.
  - simpl. rewrite app_nil_r. f_equal. set_solver.
  - assert (Hr : results !! j0 = Some r).
    { rewrite <- (Nat.add_0_r j0). apply Hres. }
    assert (Hres' : ∀ k, results !! (S j0 + k)%nat = rs !! k).
    { intros k. change (rs !! k) with ((r :: rs) !! S k).
      rewrite <- Hres. f_equal. lia. }
    cbn [length seq foldl].
    rewrite (scanStep_at _ _ _ _ _ Hr), pendingFrom_cons.
    destruct (decide (j0 ∈ assigned)) as [Hin|Hin]; [now apply IH|].
    destruct (decide (entangled threshold seed.2 r)) as [Hent|Hent].
    + rewrite filter_cons_True by exact Hent.
      rewrite IH by exact Hres'. rewrite pendingFrom_mark.
      rewrite !fmap_cons. simpl. rewrite <- app_assoc. simpl.
      f_equal. set_solver.
    + rewrite filter_cons_False by exact Hent. now apply IH.
Qed.

Lemma clusterStep_at (assigned : gset nat) clusterList i ri :
  results !! i = Some ri ->
  clusterStep results threshold (assigned, clusterList) i =
  if decide (i ∈ assigned) then (assigned, clusterList)
  else
    let inner :=
      foldl (scanStep results threshold ri) ([ri], {[i]} ∪ assigned)
            (seq (i + 1) (length results - (i + 1))) in
    (inner.2,
     clusterList ++ [specCluster (length clusterList) inner.1]).
Proof. intros Hi. unfold clusterStep. simpl. now rewrite Hi. Qed.

(** The outer loop started at position [i]: it appends, numbered from
    [length clusterList] on, the clusters that the algorithm of the
    specification makes of the pending entries. *)
Lemma cluster_loop rs :
  ∀ i (assigned : gset nat) clusterList,
    (∀ k, results !! (i + k)%nat = rs !! k) ->
    length results = (i + length rs)%nat ->
    (foldl (clusterStep results threshold) (assigned, clusterList)
           (seq i (length rs))).2 =
    clusterList
      ++ imap (λ k members, specCluster (length clusterList + k) members.*2)
              (greedy (entangledEntries threshold)
                      (pendingFrom i rs assigned)).
Proof.
  induction rs as [|r rs IH]; intros i assigned clusterList Hres Hlen.
  - simpl. unfold pendingFrom, entriesFrom. simpl. simp greedy.
    simpl. now rewrite app_nil_r.
  - assert (Hr : results !! i = Some r).
    { rewrite <- (Nat.add_0_r i). apply Hres. }
    assert (Hres' : ∀ k, results !! (S i + k)%nat = rs !! k).
    { intros k. change (rs !! k) with ((r :: rs) !! S k).
      rewrite <- Hres. f_equal. lia. }
    cbn [length seq foldl].
    rewrite (clusterStep_at _ _ _ _ Hr), pendingFrom_cons.
    destruct (decide (i ∈ assigned)) as [Hin|Hin].
    { apply IH; [exact Hres'|]. simpl in Hlen. lia. }
    cbn zeta.
    replace (length results - (i + 1))%nat with (length rs)
      by (simpl in Hlen; lia).
    replace (i + 1)%nat with (S i) by lia.
    rewrite (scan_spec (i, r) rs (S i) [r] ({[i]} ∪ assigned) Hres').
    cbn [fst snd].
    rewrite IH by (try exact Hres'; simpl in Hlen; lia).
    rewrite pendingFrom_absorbed, pendingFrom_mark.
    simp greedy. rewrite imap_cons, <- app_assoc. simpl.
    rewrite Nat.add_0_r. do 2 f_equal.
    apply imap_ext. intros k members _. simpl.
    rewrite length_app. simpl. f_equal. lia.
Qed.

Lemma filter_fmap {A B} (f : B -> A) (P : A -> Prop)
    `{!∀ a, Decision (P a)} (l : list B) :
  filter P (f <$> l) = f <$> filter (λ b, P (f b)) l.
Proof.
  induction l as [|b l IH]; [reflexivity|].
  rewrite fmap_cons, !filter_cons, IH.
  now destruct (decide (P (f b))).
Qed.

(** Induction along the recursion of [greedy]: from the results left
    unassigned by a seed to the list that starts with the seed. *)
Lemma unassigned_ind {A} (linked : A -> A -> Prop) `{!RelDecision linked}
    (P : list A -> Prop) :
  P [] ->
  (∀ seed later, P (filter (λ r, ¬ linked seed r) later) -> P (seed :: later)) ->
  ∀ l, P l.
Proof.
  intros Hnil Hcons l.
  remember (length l) as n eqn:Hn. revert l Hn.
  induction n as [n IH] using lt_wf_ind. intros [|seed later] Hn;
    [exact Hnil|].
  apply Hcons.
  apply (IH (length (filter (λ r, ¬ linked seed r) later))); [|reflexivity].
  pose proof (length_filter (λ r, ¬ linked seed r) later).
  simpl in Hn. lia.
Qed.

(** [greedy] commutes with a map that preserves the link relation. *)
Lemma greedy_fmap {A B} (f : B -> A)
    (linked : A -> A -> Prop) `{!RelDecision linked}
    (linked' : B -> B -> Prop) `{!RelDecision linked'} :
  (∀ b b', linked' b b' <-> linked (f b) (f b')) ->
  ∀ l : list B,
    fmap (M:=list) f <$> greedy linked' l = greedy linked (f <$> l).
Proof.
  intros Hlink l.
  induction l as [|seed later IH] using (unassigned_ind linked').
  - now simp greedy.
  - rewrite fmap_cons. simp greedy. rewrite fmap_cons, !fmap_cons.
    rewrite !filter_fmap, IH. f_equal.
    + f_equal. f_equal. apply list_filter_iff. intros b. apply Hlink.
    + f_equal. f_equal. apply list_filter_iff. intros b.
      now rewrite Hlink.
Qed.

Lemma entriesFrom_results i rs : (entriesFrom i rs).*2 = rs.
Proof.
  unfold entriesFrom. rewrite fmap_imap.
  rewrite <- (list_fmap_id rs) at 2. rewrite <- imap_const.
  now apply imap_ext.
Qed.

Lemma entriesFrom_positions i rs : (entriesFrom i rs).*1 = seq i (length rs).
Proof.
  revert i. induction rs as [|r rs IH]; intros i; [reflexivity|].
  rewrite entriesFrom_cons, fmap_cons. simpl. now rewrite IH.
Qed.

Lemma pendingFrom_empty i rs : pendingFrom i rs ∅ = entriesFrom i rs.
Proof.
  unfold pendingFrom.
  rewrite (filter_ext_in _ (λ _, True)); [|intros e _; set_solver].
  induction (entriesFrom i rs) as [|e l IH]; [reflexivity|].
  now rewrite filter_cons_True, IH.
Qed.

(** The clusters before sorting, with the positions of their members. *)
Lemma clusterList_entries :
  (foldl (clusterStep results threshold) (∅, [])
         (seq 0 (length results))).2 =
  imap (λ k members, specCluster k members.*2)
       (greedy (entangledEntries threshold) (entriesFrom 0 results)).
Proof.
  rewrite (cluster_loop results 0 ∅ []) by (intros; reflexivity).
  now rewrite pendingFrom_empty.
Qed.

(** The loops of [clusterResults] build the clusters of the algorithm of
    the specification, in the same order. *)
Lemma clusterList_greedy :
  (foldl (clusterStep results threshold) (∅, [])
         (seq 0 (length results))).2 =
  imap specCluster (greedy (entangled threshold) results).
Proof.
  rewrite clusterList_entries.
  rewrite <- (entriesFrom_results 0 results) at 2.
  rewrite <- (greedy_fmap snd (entangled threshold)
                (entangledEntries threshold)) by reflexivity.
  now rewrite imap_fmap.
Qed.

(** *** The sort *)

Lemma insertDesc_perm c l : insertDesc c l ≡ₚ c :: l.
Proof.
  induction l as [|d l IH]; [reflexivity|]. simpl.
  destruct (decide (_ <= 0)); [|reflexivity].
  rewrite IH. apply Permutation_swap.
Qed.

Lemma insertDesc_descending c l : descending l -> descending (insertDesc c l).
Proof.
  unfold descending. induction 1 as [|d l Hl IH Hd]; simpl.
  - repeat constructor.
  - unfold byAvgResonance. destruct (decide (_ <= 0)) as [Hge|Hlt].
    + constructor; [exact IH|].
      rewrite insertDesc_perm. constructor; [lra|exact Hd].
    + constructor; [now constructor|].
      constructor; [lra|].
      eapply Forall_impl; [exact Hd|]. simpl. intros b Hb. lra.
Qed.

Lemma sortDesc_perm l : sortDesc l ≡ₚ l.
Proof.
  unfold sortDesc.
  assert (Hgen : ∀ acc, foldl (λ sorted c, insertDesc c sorted) acc l
                        ≡ₚ l ++ acc).
  { induction l as [|c l IH]; intros acc; [reflexivity|].
    simpl. rewrite IH, insertDesc_perm.
    now rewrite Permutation_middle. }
  now rewrite Hgen, app_nil_r.
Qed.

Lemma sortDesc_descending l : descending (sortDesc l).
Proof.
  unfold sortDesc.
  assert (Hgen : ∀ acc, descending acc ->
                        descending (foldl (λ sorted c, insertDesc c sorted) acc l)).
  { induction l as [|c l IH]; intros acc Hacc; [exact Hacc|].
    simpl. apply IH, insertDesc_descending, Hacc. }
  apply Hgen. constructor.
Qed.

(** C3.  [clusterResults] is the algorithm of the specification: the
    clusters that [greedy] makes of the results in their given order, each
    seed absorbing the later unassigned results whose strength against the
    seed reaches the threshold, numbered in order of creation and then
    sorted; the returned list holds exactly these clusters, by descending
    average resonance. *)
Theorem clusterResults_algorithm :
  clusterResults results threshold =
    sortDesc (imap specCluster (greedy (entangled threshold) results)) /\
  clusterResults results threshold
    ≡ₚ imap specCluster (greedy (entangled threshold) results) /\
  descending (clusterResults results threshold).
Proof.
  assert (Heq : clusterResults results threshold =
                sortDesc (imap specCluster (greedy (entangled threshold) results))).
  { unfold clusterResults.
    destruct (decide (length results = 0%nat)) as [Hz|Hnz].
    - apply nil_length_inv in Hz. rewrite Hz. now simp greedy.
    - cbn zeta. now rewrite clusterList_greedy. }
  rewrite Heq. split; [reflexivity|].
  split; [apply sortDesc_perm|apply sortDesc_descending].
Qed.

(** *** The clusters partition the positions *)

Lemma greedy_partition {A} (linked : A -> A -> Prop)
    `{!RelDecision linked} (l : list A) :
  concat (greedy linked l) ≡ₚ l.
Proof.
  induction l as [|seed later IH] using (unassigned_ind linked).
  - now simp greedy.
  - simp greedy. simpl. constructor. rewrite IH.
    apply filter_app_complement.
Qed.

Lemma greedy_nonempty {A} (linked : A -> A -> Prop)
    `{!RelDecision linked} (l : list A) :
  Forall (λ members, members <> []) (greedy linked l).
Proof.
  induction l as [|seed later IH] using (unassigned_ind linked);
    simp greedy; constructor; [discriminate|exact IH].
Qed.

Lemma concat_perm {A} (l l' : list (list A)) :
  l ≡ₚ l' -> concat l ≡ₚ concat l'.
Proof.
  induction 1 as [|a l l' _ IH|a b l|l l' l'' _ IH _ IH']; simpl.
  - reflexivity.
  - now rewrite IH.
  - rewrite !app_assoc. f_equiv. apply Permutation_app_comm.
  - now rewrite IH.
Qed.

Lemma concat_fmap {A B} (f : A -> B) (l : list (list A)) :
  concat (fmap (M:=list) f <$> l) = f <$> concat l.
Proof.
  induction l as [|a l IH]; [reflexivity|].
  rewrite fmap_cons. simpl. now rewrite IH, fmap_app.
Qed.

Lemma Forall2_imap_fmap {A B C} (Q : B -> C -> Prop)
    (f : nat -> A -> B) (g : A -> C) (l : list A) :
  (∀ k a, l !! k = Some a -> Q (f k a) (g a)) ->
  Forall2 Q (imap f l) (g <$> l).
Proof.
  revert f. induction l as [|a l IH]; intros f Hf; [constructor|].
  rewrite imap_cons, fmap_cons. constructor.
  - now apply Hf.
  - apply IH. intros k b Hk. now apply (Hf (S k)).
Qed.

Lemma clusterAt_specCluster k (members : list (nat * SearchResult)) :
  members ⊆ entriesFrom 0 results ->
  clusterAt results (specCluster k members.*2) members.*1.
Proof.
  intros Hsub. unfold clusterAt, specCluster. simpl.
  induction members as [|e members IH]; [constructor|].
  rewrite !fmap_cons. constructor.
  - assert (He : e ∈ entriesFrom 0 results) by (apply Hsub; now left).
    apply elem_of_entriesFrom in He as (j & Hj & He).
    exists e.2. simpl. split; [|reflexivity]. now rewrite Hj.
  - apply IH. intros e' He'. apply Hsub. now right.
Qed.

Lemma sizes_of_parts (clusters : list Cluster.t) (parts : list (list nat)) :
  Forall2 (clusterAt results) clusters parts ->
  sum_list (length ∘ Cluster.results <$> clusters) = length (concat parts).
Proof.
  induction 1 as [|c part clusters parts Hc _ IH]; [reflexivity|].
  rewrite fmap_cons. cbn [sum_list sum_list_with concat].
  rewrite length_app, <- IH. unfold compose at 1.
  change (Datatypes.id (length (Cluster.results c)))
    with (length (Cluster.results c)).
  now rewrite (Forall2_length _ _ _ Hc).
Qed.

(** C10.  The returned clusters partition the input: there are lists of
    positions, one per returned cluster, that together hold every position
    of the input list exactly once and give each cluster's members in
    order; no cluster is empty; and the cluster sizes add up to the length
    of the input. *)
Theorem clusterResults_partition :
  (∃ parts : list (list nat),
     concat parts ≡ₚ seq 0 (length results) /\
     Forall2 (clusterAt results) (clusterResults results threshold) parts) /\
  Forall (λ c, Cluster.results c <> []) (clusterResults results threshold) /\
  sum_list (length ∘ Cluster.results <$> clusterResults results threshold)
    = length results.
Proof.
  set (G := greedy (entangledEntries threshold) (entriesFrom 0 results)).
  set (pre := imap (λ k members, specCluster k members.*2) G).
  assert (Hout : clusterResults results threshold ≡ₚ pre).
  { unfold clusterResults.
    destruct (decide (length results = 0%nat)) as [Hz|Hnz].
    - apply nil_length_inv in Hz. subst pre G. rewrite Hz.
      unfold entriesFrom. simpl. now simp greedy.
    - cbn zeta. rewrite clusterList_entries. apply sortDesc_perm. }
  pose proof (greedy_partition (entangledEntries threshold)
                (entriesFrom 0 results)) as Hpart. fold G in Hpart.
  assert (Hpre : Forall2 (clusterAt results) pre (fmap (M:=list) fst <$> G)).
  { apply Forall2_imap_fmap. intros k members Hk.
    apply clusterAt_specCluster. intros e He.
    rewrite <- Hpart. apply list_elem_of_In, in_concat.
    exists members. split; apply list_elem_of_In; [|exact He].
    eapply list_elem_of_lookup_2. exact Hk. }
  assert (Hparts : ∃ parts, concat parts ≡ₚ seq 0 (length results) /\
             Forall2 (clusterAt results) (clusterResults results threshold) parts).
  { symmetry in Hout.
    destruct (Permutation_Forall2 Hout Hpre) as (parts & Hp & Hf).
    exists parts. split; [|exact Hf].
    rewrite <- (concat_perm _ _ Hp), concat_fmap, Hpart.
    now rewrite entriesFrom_positions. }
  split; [exact Hparts|]. split.
  - rewrite Hout. subst pre.
    pose proof (greedy_nonempty (entangledEntries threshold)
                  (entriesFrom 0 results)) as Hne. fold G in Hne.
    apply Forall_forall. intros c Hc.
    apply elem_of_lookup_imap in Hc as (k & members & -> & Hk).
    rewrite Forall_forall in Hne.
    assert (Hm : members <> []).
    { apply Hne. eapply list_elem_of_lookup_2. exact Hk. }
    unfold specCluster. simpl. destruct members; [done|discriminate].
  - destruct Hparts as (parts & Hp & Hf).
    rewrite (sizes_of_parts _ _ Hf), Hp. apply length_seq.
Qed.

End Clustering.

(** *** A run of the loops *)

Lemma strength_AA u v : strength (rA u) (rA v) = 1.
Proof.
  unfold strength, entanglementStrength. rewrite filter_has_intersection.
  cbn [rA memory Memory.encoded Memory.quaternion Memory.primeSignature
       primeSignature quaternion].
  replace (size (list_to_set [2%Z; 3%Z] ∩ list_to_set [2%Z; 3%Z] : gset Z))
    with 2%nat by reflexivity.
  replace (size (list_to_set [2%Z; 3%Z] : gset Z)) with 2%nat by reflexivity.
  simpl. unfold dot. simpl.
  replace (1 * 1 + 0 * 0 + 0 * 0 + 0 * 0) with 1 by ring.
  rewrite Rabs_R1. lra.
Qed.

Lemma strength_AB u v : strength (rA u) (rB v) = 0.
Proof.
  unfold strength, entanglementStrength. rewrite filter_has_intersection.
  cbn [rA rB memory Memory.encoded Memory.quaternion Memory.primeSignature
       primeSignature quaternion].
  replace (size (list_to_set [2%Z; 3%Z] ∩ list_to_set [5%Z] : gset Z))
    with 0%nat by reflexivity.
  replace (size (list_to_set [2%Z; 3%Z] : gset Z)) with 2%nat by reflexivity.
  replace (size (list_to_set [5%Z] : gset Z)) with 1%nat by reflexivity.
  simpl. unfold dot. simpl.
  replace (1 * 0 + 0 * 1 + 0 * 0 + 0 * 0) with 0 by ring.
  rewrite Rabs_R0. lra.
Qed.

Lemma entangled_AA u v : entangled 0.3 (rA u) (rA v).
Proof. unfold entangled. rewrite strength_AA. lra. Qed.

Lemma not_entangled_AB u v : ¬ entangled 0.3 (rA u) (rB v).
Proof. unfold entangled. rewrite strength_AB. lra. Qed.

(** Three results at threshold 0.3: the first seeds cluster 0 and absorbs
    the third (strength 1), the second (strength 0 against the first)
    seeds cluster 1; cluster 1 has the higher average and comes first. *)
Example clusterResults_three :
  clusterResults [rA 0.2; rB 0.9; rA 0.4] 0.3 =
  [specCluster 1 [rB 0.9]; specCluster 0 [rA 0.2; rA 0.4]].
Proof.
  unfold clusterResults. rewrite decide_False by (simpl; lia).
  cbn [length seq foldl].
  (* i = 0 *)
  rewrite (clusterStep_at _ _ _ _ 0%nat (rA 0.2)) by reflexivity.
  rewrite decide_False by set_solver.
  cbn [length seq foldl Nat.add Nat.sub].
  rewrite (scanStep_at _ _ _ _ _ 1%nat (rB 0.9)) by reflexivity.
  rewrite decide_False by set_solver.
  rewrite (decide_False (P := entangled _ _ _)) by apply not_entangled_AB.
  rewrite (scanStep_at _ _ _ _ _ 2%nat (rA 0.4)) by reflexivity.
  rewrite decide_False by set_solver.
  rewrite (decide_True (P := entangled _ _ _)) by apply entangled_AA.
  cbn [fst snd app].
  (* i = 1 *)
  rewrite (clusterStep_at _ _ _ _ 1%nat (rB 0.9)) by reflexivity.
  rewrite decide_False by set_solver.
  cbn [length seq foldl Nat.add Nat.sub].
  rewrite (scanStep_at _ _ _ _ _ 2%nat (rA 0.4)) by reflexivity.
  rewrite decide_True by set_solver.
  cbn [fst snd app].
  (* i = 2 *)
  rewrite (clusterStep_at _ _ _ _ 2%nat (rA 0.4)) by reflexivity.
  rewrite decide_True by set_solver.
  cbn [fst snd]. unfold sortDesc. cbn [foldl insertDesc].
  rewrite decide_False; [reflexivity|].
  unfold byAvgResonance, specCluster, average. simpl. lra.
Qed.

(** * Further properties of the library *)

(** Magnitude 1 of a quaternion given by its components. *)
Ltac unit_components :=
  apply magnitude_one_iff; unfold sumSquares; simpl; ring.

(** ** Products and commutators *)

Lemma hamiltonProduct_unit (a b : Quaternion) :
  magnitude a = 1 -> magnitude b = 1 ->
  hamiltonProduct a b = hamiltonFormula a b.
Proof.
  intros Ha Hb. apply normalize_unit, magnitude_hamiltonFormula; assumption.
Qed.

(** X1.  The identity quaternion (1,0,0,0) is a left and right identity of
    the Hamilton product up to normalization: the product with any [q] is
    [normalize q], hence [q] itself when [q] is unit. *)
Theorem hamiltonProduct_identity (q : Quaternion) :
  hamiltonProduct (createQuaternion 1 0 0 0) q = normalize q /\
  hamiltonProduct q (createQuaternion 1 0 0 0) = normalize q /\
  (magnitude q = 1 ->
   hamiltonProduct (createQuaternion 1 0 0 0) q = q /\
   hamiltonProduct q (createQuaternion 1 0 0 0) = q).
Proof.
  assert (Hl : hamiltonProduct (createQuaternion 1 0 0 0) q = normalize q).
  { unfold hamiltonProduct. f_equal. destruct q. simpl. f_equal; ring. }
  assert (Hr : hamiltonProduct q (createQuaternion 1 0 0 0) = normalize q).
  { unfold hamiltonProduct. f_equal. destruct q. simpl. f_equal; ring. }
  split; [exact Hl|]. split; [exact Hr|].
  intros Hq. rewrite Hl, Hr, normalize_unit by exact Hq. now split.
Qed.

Lemma magnitude_0010 : magnitude (createQuaternion 0 0 1 0) = 1.
Proof. unit_components. Qed.

Lemma hamiltonProduct_identity_witness :
  hamiltonProduct (createQuaternion 1 0 0 0) (createQuaternion 0 1 0 0)
    = createQuaternion 0 1 0 0 /\
  hamiltonProduct (createQuaternion 0 1 0 0) (createQuaternion 1 0 0 0)
    = createQuaternion 0 1 0 0.
Proof.
  apply (hamiltonProduct_identity (createQuaternion 0 1 0 0)).
  exact magnitude_0100.
Defined.

Lemma hamiltonFormula_assoc (a b c : Quaternion) :
  hamiltonFormula (hamiltonFormula a b) c =
  hamiltonFormula a (hamiltonFormula b c).
Proof. unfold hamiltonFormula. simpl. f_equal; ring. Qed.

(** X2.  On unit quaternions the Hamilton product is associative. *)
Theorem hamiltonProduct_assoc (a b c : Quaternion) :
  magnitude a = 1 -> magnitude b = 1 -> magnitude c = 1 ->
  hamiltonProduct (hamiltonProduct a b) c =
  hamiltonProduct a (hamiltonProduct b c).
Proof.
  intros Ha Hb Hc.
  rewrite (hamiltonProduct_unit a b), (hamiltonProduct_unit b c) by assumption.
  rewrite !hamiltonProduct_unit
    by (assumption || apply magnitude_hamiltonFormula; assumption).
  apply hamiltonFormula_assoc.
Qed.

Lemma hamiltonProduct_assoc_witness :
  hamiltonProduct
    (hamiltonProduct (createQuaternion 0 1 0 0) (createQuaternion 0 0 1 0))
    (createQuaternion 0 1 0 0) =
  hamiltonProduct (createQuaternion 0 1 0 0)
    (hamiltonProduct (createQuaternion 0 0 1 0) (createQuaternion 0 1 0 0)).
Proof.
  apply (hamiltonProduct_assoc (createQuaternion 0 1 0 0)
           (createQuaternion 0 0 1 0) (createQuaternion 0 1 0 0)).
  - exact magnitude_0100.
  - exact magnitude_0010.
  - exact magnitude_0100.
Defined.




Lemma commutator_unit (a b : Quaternion) :
  magnitude a = 1 -> magnitude b = 1 ->
  commutator a b = scale 2 (vectorCross a b).
Proof.
  intros Ha Hb. unfold commutator.
  rewrite !hamiltonProduct_unit by assumption.
  unfold scale, vectorCross, hamiltonFormula. simpl. f_equal; ring.
Qed.

(** X4.  For unit quaternions the commutator is twice the cross product
    of the vector parts, and the two products agree exactly when that
    cross product is 0. *)
Theorem commutator_cross (a b : Quaternion) :
  magnitude a = 1 -> magnitude b = 1 ->
  commutator a b = scale 2 (vectorCross a b) /\
  (hamiltonProduct a b = hamiltonProduct b a <->
   vectorCross a b = createQuaternion 0 0 0 0).
Proof.
  intros Ha Hb. split; [now apply commutator_unit|].
  rewrite !hamiltonProduct_unit by assumption.
  unfold hamiltonFormula, vectorCross. split.
  - intros Heq. injection Heq as _ Hx Hy Hz. f_equal; lra.
  - intros Heq. injection Heq as Hx Hy Hz. f_equal; lra.
Qed.

(** The units i and j: their products are k and -k. *)
Lemma commutator_cross_witness :
  commutator (createQuaternion 0 1 0 0) (createQuaternion 0 0 1 0) =
    scale 2 (vectorCross (createQuaternion 0 1 0 0) (createQuaternion 0 0 1 0)) /\
  (hamiltonProduct (createQuaternion 0 1 0 0) (createQuaternion 0 0 1 0) =
   hamiltonProduct (createQuaternion 0 0 1 0) (createQuaternion 0 1 0 0) <->
   vectorCross (createQuaternion 0 1 0 0) (createQuaternion 0 0 1 0) =
   createQuaternion 0 0 0 0).
Proof.
  apply (commutator_cross (createQuaternion 0 1 0 0) (createQuaternion 0 0 1 0)).
  - exact magnitude_0100.
  - exact magnitude_0010.
Defined.

(** ** The dot product *)

Lemma Rabs_between (v bound : R) : Rabs v <= bound -> - bound <= v <= bound.
Proof. unfold Rabs. destruct (Rcase_abs v); lra. Qed.

Lemma dot_square_le (a b : Quaternion) :
  dot a b * dot a b <= sumSquares a * sumSquares b.
Proof.
  unfold dot, sumSquares. destruct a as [a0 a1 a2 a3], b as [b0 b1 b2 b3].
  simpl.
  assert (H : (a0 * a0 + a1 * a1 + a2 * a2 + a3 * a3)
              * (b0 * b0 + b1 * b1 + b2 * b2 + b3 * b3)
              - (a0 * b0 + a1 * b1 + a2 * b2 + a3 * b3)
                * (a0 * b0 + a1 * b1 + a2 * b2 + a3 * b3)
              = (a0 * b1 - a1 * b0) * (a0 * b1 - a1 * b0)
                + (a0 * b2 - a2 * b0) * (a0 * b2 - a2 * b0)
                + (a0 * b3 - a3 * b0) * (a0 * b3 - a3 * b0)
                + (a1 * b2 - a2 * b1) * (a1 * b2 - a2 * b1)
                + (a1 * b3 - a3 * b1) * (a1 * b3 - a3 * b1)
                + (a2 * b3 - a3 * b2) * (a2 * b3 - a3 * b2)) by ring.
  pose proof (Rle_0_sqr (a0 * b1 - a1 * b0)).
  pose proof (Rle_0_sqr (a0 * b2 - a2 * b0)).
  pose proof (Rle_0_sqr (a0 * b3 - a3 * b0)).
  pose proof (Rle_0_sqr (a1 * b2 - a2 * b1)).
  pose proof (Rle_0_sqr (a1 * b3 - a3 * b1)).
  pose proof (Rle_0_sqr (a2 * b3 - a3 * b2)).
  unfold Rsqr in *. lra.
Qed.

Lemma Rabs_dot_unit (a b : Quaternion) :
  magnitude a = 1 -> magnitude b = 1 -> Rabs (dot a b) <= 1.
Proof.
  intros Ha Hb. pose proof (dot_square_le a b) as H.
  apply magnitude_one_iff in Ha, Hb. rewrite Ha, Hb in H.
  apply Rabs_le. split; nra.
Qed.



(** ** Normalization and scaling *)

Lemma magnitude_scale (k : R) (q : Quaternion) :
  0 <= k -> magnitude (scale k q) = k * magnitude q.
Proof.
  intros Hk. unfold magnitude, scale. simpl.
  replace (k * w q * (k * w q) + k * x q * (k * x q) +
           k * y q * (k * y q) + k * z q * (k * z q))
    with (k * k * sumSquares q) by (unfold sumSquares; ring).
  rewrite sqrt_mult_alt by nra. now rewrite sqrt_square.
Qed.

(** A positive factor does not change the normalized quaternion. *)
Lemma normalize_scale (k : R) (q : Quaternion) :
  0 < k -> normalize (scale k q) = normalize q.
Proof.
  intros Hk. unfold normalize. rewrite magnitude_scale by lra.
  destruct (decide (magnitude q = 0)) as [Hz|Hnz].
  - rewrite decide_True by (rewrite Hz; ring). reflexivity.
  - rewrite decide_False by (intros H; apply Rmult_integral in H; lra).
    unfold scale. simpl. f_equal; field; lra.
Qed.

(** ** Interpolation *)

Lemma sin_cos_square (v : R) : sin v * sin v + cos v * cos v = 1.
Proof. pose proof (sin2_cos2 v) as H. unfold Rsqr in H. exact H. Qed.

(** In the trigonometric branch the blend of [a] and [b'] is already
    unit, and its dot product with [a] is [cos theta]. *)
Lemma slerp_blend (a b' : Quaternion) (t : R) :
  magnitude a = 1 -> magnitude b' = 1 -> 0 <= dot a b' <= 0.9995 ->
  let d := dot a b' in
  let theta0 := acos d in
  let theta := theta0 * t in
  let s0 := cos theta - d * sin theta / sin theta0 in
  let s1 := sin theta / sin theta0 in
  let blend :=
    createQuaternion (s0 * w a + s1 * w b') (s0 * x a + s1 * x b')
                     (s0 * y a + s1 * y b') (s0 * z a + s1 * z b') in
  magnitude blend = 1 /\ dot a blend = cos theta.
Proof.
  intros Ha Hb Hd d theta0 theta s0 s1 blend.
  pose proof (sin_acos_pos d Hd) as HS. fold theta0 in HS.
  assert (Hcos : cos theta0 = d) by (apply cos_acos; unfold d; lra).
  pose proof (sin_cos_square theta0) as H0. rewrite Hcos in H0.
  pose proof (sin_cos_square theta) as Ht.
  apply magnitude_one_iff in Ha, Hb.
  assert (Hs1 : s1 * s1 * (1 - d * d) = sin theta * sin theta).
  { replace (1 - d * d) with (sin theta0 * sin theta0) by lra.
    unfold s1. field. lra. }
  assert (Hs0 : s0 = cos theta - d * s1).
  { unfold s0, s1. field. lra. }
  split.
  - apply magnitude_one_iff.
    replace (sumSquares blend)
      with (s0 * s0 * sumSquares a + 2 * s0 * s1 * dot a b'
            + s1 * s1 * sumSquares b')
      by (unfold blend, sumSquares, dot; simpl; ring).
    rewrite Ha, Hb. fold d. rewrite Hs0.
    replace ((cos theta - d * s1) * (cos theta - d * s1) * 1
             + 2 * (cos theta - d * s1) * s1 * d + s1 * s1 * 1)
      with (cos theta * cos theta + s1 * s1 * (1 - d * d)) by ring.
    rewrite Hs1. lra.
  - replace (dot a blend) with (s0 * sumSquares a + s1 * dot a b')
      by (unfold blend, sumSquares, dot; simpl; ring).
    rewrite Ha. fold d. rewrite Hs0. ring.
Qed.

Lemma dot_negate_r (a b : Quaternion) : dot a (negate b) = - dot a b.
Proof. unfold dot, negate. simpl. ring. Qed.

(** X6.  For unit [a] and [b] that are not nearly parallel or antiparallel
    ([|dot a b| <= 0.9995]) the interpolated quaternion makes the angle
    [t * acos |dot a b|] with [a]: [dot a (slerp a b t)] is the cosine of
    that angle, for every [t]. *)
Theorem slerp_angle (a b : Quaternion) (t : R) :
  magnitude a = 1 -> magnitude b = 1 -> Rabs (dot a b) <= 0.9995 ->
  dot a (slerp a b t) = cos (acos (Rabs (dot a b)) * t).
Proof.
  intros Ha Hb Hd. unfold slerp.
  destruct (decide (dot a b < 0)) as [Hneg|Hpos].
  - rewrite Rabs_left in Hd |- * by exact Hneg.
    fold (negate b). rewrite <- dot_negate_r in Hd |- *.
    rewrite decide_False by lra.
    assert (Hb' : magnitude (negate b) = 1) by now rewrite magnitude_negate.
    destruct (slerp_blend a (negate b) t Ha Hb') as [Hm Hdot].
    { rewrite dot_negate_r in *. lra. }
    cbv zeta in Hm, Hdot. rewrite normalize_unit by exact Hm. exact Hdot.
  - rewrite Rabs_right in Hd |- * by lra.
    rewrite decide_False by lra.
    destruct (slerp_blend a b t Ha Hb) as [Hm Hdot]; [lra|].
    cbv zeta in Hm, Hdot. rewrite normalize_unit by exact Hm. exact Hdot.
Qed.

(** Halfway between 1 and i. *)
Lemma slerp_angle_witness :
  dot (createQuaternion 1 0 0 0)
      (slerp (createQuaternion 1 0 0 0) (createQuaternion 0 1 0 0) (1 / 2))
  = cos (acos (Rabs (dot (createQuaternion 1 0 0 0)
                         (createQuaternion 0 1 0 0))) * (1 / 2)).
Proof.
  apply (slerp_angle (createQuaternion 1 0 0 0) (createQuaternion 0 1 0 0)).
  - exact magnitude_1000.
  - exact magnitude_0100.
  - unfold dot. simpl.
    replace (1 * 0 + 0 * 1 + 0 * 0 + 0 * 0) with 0 by ring.
    rewrite Rabs_R0. lra.
Defined.

Lemma negate_negate (q : Quaternion) : negate (negate q) = q.
Proof. destruct q. unfold negate. simpl. f_equal; ring. Qed.

(** X7.  [b] and [-b] are interpolated alike: when [dot a b] is not 0,
    [slerp a (-b) t] is [slerp a b t]. *)
Theorem slerp_negate (a b : Quaternion) (t : R) :
  dot a b <> 0 -> slerp a (negate b) t = slerp a b t.
Proof.
  intros Hd. unfold slerp. rewrite dot_negate_r.
  fold (negate (negate b)) (negate b). rewrite negate_negate.
  destruct (decide (- dot a b < 0)), (decide (dot a b < 0)); try lra.
  - now rewrite Ropp_involutive.
  - reflexivity.
Qed.

Lemma slerp_negate_witness :
  slerp (createQuaternion 1 0 0 0) (negate (createQuaternion 1 0 0 0)) (1 / 2)
  = slerp (createQuaternion 1 0 0 0) (createQuaternion 1 0 0 0) (1 / 2).
Proof.
  apply (slerp_negate (createQuaternion 1 0 0 0) (createQuaternion 1 0 0 0)).
  unfold dot. simpl. lra.
Defined.

(** ** Projection and sampling *)

(** X8.  For a unit quaternion, away from the pole ([|1 - w| >= 0.001])
    the projected point [p] has [|p|² = (1 + w) / (1 - w)]; near the pole
    the substitute [(10x, 10y, 10z)] has [|p|² = 100 (1 - w²) < 0.2]. *)
Theorem stereographicProject_norm (q : Quaternion) :
  magnitude q = 1 ->
  (¬ Rabs (1 - w q) < 0.001 ->
   Point3.normSquared (stereographicProject q) = (1 + w q) / (1 - w q)) /\
  (Rabs (1 - w q) < 0.001 ->
   Point3.normSquared (stereographicProject q) = 100 * (1 - w q * w q) /\
   Point3.normSquared (stereographicProject q) < 0.2).
Proof.
  intros Hq. apply magnitude_one_iff in Hq. unfold sumSquares in Hq.
  unfold stereographicProject, Point3.normSquared. split.
  - intros Hfar. rewrite decide_False by exact Hfar. simpl.
    assert (Hne : 1 - w q <> 0).
    { intros Hz. apply Hfar. rewrite Hz, Rabs_R0. lra. }
    replace (x q / (1 - w q) * (x q / (1 - w q))
             + y q / (1 - w q) * (y q / (1 - w q))
             + z q / (1 - w q) * (z q / (1 - w q)))
      with ((x q * x q + y q * y q + z q * z q)
            / ((1 - w q) * (1 - w q))) by (field; exact Hne).
    replace (x q * x q + y q * y q + z q * z q)
      with ((1 + w q) * (1 - w q)) by lra.
    field. exact Hne.
  - intros Hnear. rewrite decide_True by exact Hnear. simpl.
    apply Rabs_def2 in Hnear.
    assert (Heq : x q * 10 * (x q * 10) + y q * 10 * (y q * 10)
                  + z q * 10 * (z q * 10) = 100 * (1 - w q * w q)) by lra.
    split; [exact Heq|]. rewrite Heq. nra.
Qed.

Lemma stereographicProject_norm_witness :
  Point3.normSquared (stereographicProject (createQuaternion 0 1 0 0))
    = (1 + 0) / (1 - 0) /\
  Point3.normSquared (stereographicProject (createQuaternion 1 0 0 0)) < 0.2.
Proof.
  split.
  - apply (stereographicProject_norm (createQuaternion 0 1 0 0)).
    + exact magnitude_0100.
    + simpl. rewrite Rabs_right; lra.
  - apply (stereographicProject_norm (createQuaternion 1 0 0 0)).
    + exact magnitude_1000.
    + simpl. replace (1 - 1) with 0 by ring. rewrite Rabs_R0. lra.
Defined.

(** X9.  For every draw with [0 <= u1 <= 1] the sampled components
    already form a unit quaternion: the normalization in
    [randomQuaternion] returns them unchanged. *)
Theorem randomQuaternion_unit (u1 u2 u3 : R) :
  0 <= u1 <= 1 ->
  randomQuaternion u1 u2 u3 =
    createQuaternion (sqrt (1 - u1) * sin (2 * PI * u2))
                     (sqrt (1 - u1) * cos (2 * PI * u2))
                     (sqrt u1 * sin (2 * PI * u3))
                     (sqrt u1 * cos (2 * PI * u3)) /\
  magnitude (randomQuaternion u1 u2 u3) = 1.
Proof.
  intros Hu. split; [|apply magnitude_normalize].
  unfold randomQuaternion. apply normalize_unit, magnitude_one_iff.
  unfold sumSquares. simpl.
  pose proof (sin_cos_square (2 * PI * u2)) as H2.
  pose proof (sin_cos_square (2 * PI * u3)) as H3.
  pose proof (sqrt_sqrt (1 - u1) ltac:(lra)) as Ha.
  pose proof (sqrt_sqrt u1 ltac:(lra)) as Hb.
  replace (sqrt (1 - u1) * sin (2 * PI * u2) * (sqrt (1 - u1) * sin (2 * PI * u2))
           + sqrt (1 - u1) * cos (2 * PI * u2) * (sqrt (1 - u1) * cos (2 * PI * u2))
           + sqrt u1 * sin (2 * PI * u3) * (sqrt u1 * sin (2 * PI * u3))
           + sqrt u1 * cos (2 * PI * u3) * (sqrt u1 * cos (2 * PI * u3)))
    with (sqrt (1 - u1) * sqrt (1 - u1)
            * (sin (2 * PI * u2) * sin (2 * PI * u2)
               + cos (2 * PI * u2) * cos (2 * PI * u2))
          + sqrt u1 * sqrt u1
            * (sin (2 * PI * u3) * sin (2 * PI * u3)
               + cos (2 * PI * u3) * cos (2 * PI * u3))) by ring.
  rewrite H2, H3, Ha, Hb. ring.
Qed.

Lemma randomQuaternion_unit_witness :
  magnitude (randomQuaternion (1 / 4) (1 / 2) (3 / 4)) = 1.
Proof.
  apply (randomQuaternion_unit (1 / 4) (1 / 2) (3 / 4)). lra.
Defined.

Lemma scaled_coordinate (v maxVal : R) :
  1 <= maxVal -> Rabs v <= maxVal ->
  Rabs (v * Rmin 1.2 (1 / maxVal)) <= 1.
Proof.
  intros Hm Hv.
  assert (Hinv : 0 < / maxVal) by (apply Rinv_0_lt_compat; lra).
  assert (Hscale : Rmin 1.2 (1 / maxVal) = 1 / maxVal).
  { apply Rmin_right.
    assert (/ maxVal <= 1).
    { rewrite <- Rinv_1. apply Rinv_le_contravar; lra. }
    lra. }
  rewrite Hscale, Rabs_mult, (Rabs_right (1 / maxVal)) by lra.
  apply (Rmult_le_reg_r maxVal); [lra|].
  replace (Rabs v * (1 / maxVal) * maxVal) with (Rabs v) by (field; lra).
  lra.
Qed.

(** X10.  The displayed position of any quaternion lies in the cube
    [-1, 1]³: the scale is [1 / maxVal], the cap 1.2 is never the
    smaller value. *)
Theorem position_in_cube (q : Quaternion) :
  Rabs (Point3.x (position q)) <= 1 /\
  Rabs (Point3.y (position q)) <= 1 /\
  Rabs (Point3.z (position q)) <= 1.
Proof.
  unfold position. simpl.
  set (p := stereographicProject q).
  set (maxVal := Rmax (Rmax (Rmax (Rabs (Point3.x p)) (Rabs (Point3.y p)))
                            (Rabs (Point3.z p))) 1).
  assert (H1 : 1 <= maxVal) by apply Rmax_r.
  assert (H3 : Rmax (Rmax (Rabs (Point3.x p)) (Rabs (Point3.y p)))
                    (Rabs (Point3.z p)) <= maxVal) by apply Rmax_l.
  pose proof (Rmax_l (Rmax (Rabs (Point3.x p)) (Rabs (Point3.y p)))
                     (Rabs (Point3.z p))) as H2.
  pose proof (Rmax_r (Rmax (Rabs (Point3.x p)) (Rabs (Point3.y p)))
                     (Rabs (Point3.z p))) as Hz.
  pose proof (Rmax_l (Rabs (Point3.x p)) (Rabs (Point3.y p))) as Hx.
  pose proof (Rmax_r (Rabs (Point3.x p)) (Rabs (Point3.y p))) as Hy.
  repeat split; apply scaled_coordinate; lra.
Qed.

(** ** The encoder *)

Lemma spreadSet_elem (l : list Z) :
  ∀ (seen : gset Z) (v : Z),
    v ∈ spreadSet seen l <-> v ∈ l /\ v ∉ seen.
Proof.
  induction l as [|p l IH]; intros seen v; simpl.
  - split; [intros H; inversion H|intros [H _]; inversion H].
  - destruct (decide (p ∈ seen)) as [Hp|Hp].
    + rewrite IH, elem_of_cons. split; [tauto|].
      intros [[->|Hv] Hn]; [contradiction|tauto].
    + rewrite !elem_of_cons, IH, not_elem_of_union, not_elem_of_singleton.
      split; [intros [->|(?&?&?)]; tauto|].
      intros [[->|Hv] Hn]; [now left|].
      destruct (decide (v = p)) as [->|Hne]; [now left|right; tauto].
Qed.

Lemma spreadSet_NoDup (l : list Z) : ∀ seen : gset Z, NoDup (spreadSet seen l).
Proof.
  induction l as [|p l IH]; intros seen; simpl; [constructor|].
  destruct (decide (p ∈ seen)); [apply IH|].
  constructor; [|apply IH].
  rewrite spreadSet_elem. intros [_ Hn]. apply Hn. set_solver.
Qed.

Lemma spreadSet_length (l : list Z) :
  ∀ seen : gset Z, (length (spreadSet seen l) <= length l)%nat.
Proof.
  induction l as [|p l IH]; intros seen; simpl; [lia|].
  destruct (decide (p ∈ seen)); simpl.
  - specialize (IH seen). lia.
  - specialize (IH ({[p]} ∪ seen)). lia.
Qed.

Lemma primeAt_in_table (i : nat) (code : Z) :
  (0 <= code)%Z -> primeAt i code ∈ PRIMES.
Proof.
  intros Hc. unfold primeAt. apply list_elem_of_In, nth_In.
  assert (Hlen : Z.of_nat (length PRIMES) = 100%Z) by reflexivity.
  rewrite Hlen. change (length PRIMES) with 100%nat.
  pose proof (Z.rem_bound_pos (code + Z.of_nat i) 100) as Hb. lia.
Qed.

Lemma workingSignature_in_table (chars : jsstring) :
  Forall (λ c, 0 <= c)%Z chars -> Forall (λ p, p ∈ PRIMES) (imap primeAt chars).
Proof.
  intros Hc. apply Forall_forall. intros p Hp.
  apply elem_of_lookup_imap in Hp as (i & c & -> & Hi).
  apply primeAt_in_table. rewrite Forall_forall in Hc.
  apply Hc. eapply list_elem_of_lookup_2. exact Hi.
Qed.

Lemma encodeChars_scale (chars : jsstring) :
  quaternion (encodeChars chars) =
  normalize (foldl harmonic (createQuaternion 0 0 0 0)
                   (imap pair (imap primeAt chars))).
Proof.
  unfold encodeChars. cbn [quaternion].
  set (acc := foldl harmonic _ _).
  set (n := if decide (length (imap primeAt chars) = 0%nat) then 1
            else INR (length (imap primeAt chars))).
  assert (Hn : 0 < n).
  { unfold n. destruct (decide (length (imap primeAt chars) = 0%nat)); [lra|].
    apply lt_0_INR. lia. }
  rewrite <- (normalize_scale (/ n) acc) by now apply Rinv_0_lt_compat.
  f_equal. unfold scale. f_equal; unfold Rdiv; ring.
Qed.

Section EncoderInvariants.

Variable toLowerCase : jsstring -> jsstring.

(** X11.  Whatever the text, the encoder returns a unit quaternion and a
    signature without duplicates that is no longer than the lowercased
    text and is empty only for an empty one; when the code units are not
    negative, every entry of the signature is one of the 100 primes of
    the table, so that the signature has at most 100 entries. *)
Theorem encodeText_invariants (s : jsstring) :
  magnitude (quaternion (encodeText toLowerCase s)) = 1 /\
  NoDup (primeSignature (encodeText toLowerCase s)) /\
  (length (primeSignature (encodeText toLowerCase s))
   <= length (toLowerCase s))%nat /\
  (primeSignature (encodeText toLowerCase s) = [] <-> toLowerCase s = []) /\
  (Forall (λ c, 0 <= c)%Z (toLowerCase s) ->
   Forall (λ p, p ∈ PRIMES) (primeSignature (encodeText toLowerCase s)) /\
   (length (primeSignature (encodeText toLowerCase s)) <= 100)%nat).
Proof.
  unfold encodeText. set (chars := toLowerCase s).
  split; [apply encodeChars_unit|].
  unfold encodeChars. cbn [primeSignature].
  split; [apply spreadSet_NoDup|].
  split.
  { etransitivity; [apply spreadSet_length|]. now rewrite length_imap. }
  split.
  { split.
    - intros Hnil. destruct chars as [|c chars']; [reflexivity|].
      exfalso. revert Hnil. apply spreadSet_nonempty.
      rewrite imap_cons. discriminate.
    - intros ->. reflexivity. }
  intros Hc.
  assert (Hin : Forall (λ p, p ∈ PRIMES) (spreadSet ∅ (imap primeAt chars))).
  { apply Forall_forall. intros p Hp. apply spreadSet_elem in Hp as [Hp _].
    pose proof (workingSignature_in_table chars Hc) as Hw.
    rewrite Forall_forall in Hw. now apply Hw. }
  split; [exact Hin|].
  change 100%nat with (length PRIMES).
  apply submseteq_length, NoDup_submseteq; [apply spreadSet_NoDup|].
  now apply Forall_forall.
Qed.

(** The division of the accumulators by [n] has no effect on the
    result: the quaternion of the encoding is the normalized sum of the
    harmonics. *)
Theorem encodeText_quaternion (s : jsstring) :
  quaternion (encodeText toLowerCase s) =
  normalize (foldl harmonic (createQuaternion 0 0 0 0)
                   (imap pair (imap primeAt (toLowerCase s)))).
Proof. unfold encodeText. apply encodeChars_scale. Qed.

End EncoderInvariants.

(** The text "hi". *)
Lemma encodeText_invariants_witness :
  Forall (λ p, p ∈ PRIMES)
         (primeSignature (encodeText asciiLower [104; 105]%Z)) /\
  (length (primeSignature (encodeText asciiLower [104; 105]%Z)) <= 100)%nat.
Proof.
  apply (encodeText_invariants asciiLower [104; 105]%Z).
  simpl. repeat constructor; lia.
Defined.

(** ** Similarity scores *)

Lemma jaccardSimilarity_sets (sig1 sig2 : list Z) :
  jaccardSimilarity sig1 sig2 =
  if decide (size (list_to_set sig1 ∪ list_to_set sig2 : gset Z) = 0%nat)
  then 0
  else INR (size (list_to_set sig1 ∩ list_to_set sig2 : gset Z))
       / INR (size (list_to_set sig1 ∪ list_to_set sig2 : gset Z)).
Proof.
  unfold jaccardSimilarity. now rewrite filter_has_intersection, spread_union.
Qed.

Lemma intersection_size_le_union (A B : gset Z) :
  (size (A ∩ B) <= size (A ∪ B))%nat.
Proof. apply subseteq_size. set_solver. Qed.

Lemma jaccardSimilarity_range (sig1 sig2 : list Z) :
  0 <= jaccardSimilarity sig1 sig2 <= 1.
Proof.
  rewrite jaccardSimilarity_sets.
  set (A := list_to_set sig1 : gset Z). set (B := list_to_set sig2 : gset Z).
  destruct (decide (size (A ∪ B) = 0%nat)) as [|Hu]; [lra|].
  assert (HU : 0 < INR (size (A ∪ B))) by (apply lt_0_INR; lia).
  pose proof (le_INR _ _ (intersection_size_le_union A B)) as Hle.
  pose proof (pos_INR (size (A ∩ B))) as Hi.
  pose proof (Rinv_0_lt_compat _ HU) as Hinv.
  split.
  - apply Rmult_le_pos; lra.
  - apply (Rmult_le_reg_r (INR (size (A ∪ B)))); [exact HU|].
    unfold Rdiv. rewrite Rmult_assoc, Rinv_l by lra. lra.
Qed.

Lemma jaccardSimilarity_comm (sig1 sig2 : list Z) :
  jaccardSimilarity sig1 sig2 = jaccardSimilarity sig2 sig1.
Proof.
  rewrite !jaccardSimilarity_sets.
  rewrite (comm_L (∪) (list_to_set sig1 : gset Z)).
  now rewrite (comm_L (∩) (list_to_set sig1 : gset Z)).
Qed.

(** X12.  The Jaccard similarity lies in [0, 1], is symmetric, and
    depends only on which entries occur in the two signatures, not on
    their order or repetition. *)
Theorem jaccardSimilarity_properties (sig1 sig2 sig1' sig2' : list Z) :
  0 <= jaccardSimilarity sig1 sig2 <= 1 /\
  jaccardSimilarity sig1 sig2 = jaccardSimilarity sig2 sig1 /\
  ((∀ v, v ∈ sig1 <-> v ∈ sig1') -> (∀ v, v ∈ sig2 <-> v ∈ sig2') ->
   jaccardSimilarity sig1 sig2 = jaccardSimilarity sig1' sig2').
Proof.
  split; [apply jaccardSimilarity_range|].
  split; [apply jaccardSimilarity_comm|].
  intros H1 H2. rewrite !jaccardSimilarity_sets.
  assert (E1 : (list_to_set sig1 : gset Z) = list_to_set sig1').
  { apply set_eq. intros v. rewrite !elem_of_list_to_set. apply H1. }
  assert (E2 : (list_to_set sig2 : gset Z) = list_to_set sig2').
  { apply set_eq. intros v. rewrite !elem_of_list_to_set. apply H2. }
  now rewrite E1, E2.
Qed.

Lemma jaccardSimilarity_properties_witness :
  jaccardSimilarity [2; 3; 2]%Z [5; 3]%Z = jaccardSimilarity [3; 2]%Z [3; 5; 5]%Z.
Proof.
  apply (jaccardSimilarity_properties [2; 3; 2]%Z [5; 3]%Z [3; 2]%Z [3; 5; 5]%Z).
  - intros v. rewrite !elem_of_cons, !elem_of_nil. tauto.
  - intros v. rewrite !elem_of_cons, !elem_of_nil. tauto.
Defined.

(** X13.  The similarity is 1 exactly when the two signatures hold the
    same entries and are not empty, and 0 exactly when they share no
    entry (in particular when both are empty). *)
Theorem jaccardSimilarity_extremes (sig1 sig2 : list Z) :
  (jaccardSimilarity sig1 sig2 = 1 <->
   (∀ v, v ∈ sig1 <-> v ∈ sig2) /\ sig1 <> []) /\
  (jaccardSimilarity sig1 sig2 = 0 <-> ∀ v, v ∈ sig1 -> v ∉ sig2).
Proof.
  rewrite jaccardSimilarity_sets.
  set (A := list_to_set sig1 : gset Z). set (B := list_to_set sig2 : gset Z).
  assert (HA : ∀ v, v ∈ A <-> v ∈ sig1)
    by (intros v; apply elem_of_list_to_set).
  assert (HB : ∀ v, v ∈ B <-> v ∈ sig2)
    by (intros v; apply elem_of_list_to_set).
  destruct (decide (size (A ∪ B) = 0%nat)) as [Hu|Hu].
  - apply size_empty_inv, leibniz_equiv in Hu.
    assert (Hemp : ∀ v, v ∉ sig1 /\ v ∉ sig2).
    { intros v. rewrite <- HA, <- HB.
      assert (v ∉ A ∪ B) by (rewrite Hu; set_solver). set_solver. }
    split.
    + split; [lra|]. intros [_ Hne]. exfalso. apply Hne.
      apply elem_of_nil_inv. intros v. apply Hemp.
    + split; [|reflexivity]. intros _ v _. apply Hemp.
  - assert (HU : 0 < INR (size (A ∪ B))) by (apply lt_0_INR; lia).
    split.
    + split.
      * intros H1.
        assert (Hsz : size (A ∩ B) = size (A ∪ B)).
        { apply INR_eq. apply (Rmult_eq_compat_r (INR (size (A ∪ B)))) in H1.
          unfold Rdiv in H1. rewrite Rmult_assoc, Rinv_l in H1 by lra. lra. }
        assert (Heq : A ∩ B = A ∪ B).
        { apply set_subseteq_size_eq; [set_solver|lia]. }
        split.
        -- intros v. rewrite <- HA, <- HB.
           assert (Hv : v ∈ A ∩ B <-> v ∈ A ∪ B) by now rewrite Heq.
           set_solver.
        -- intros Hnil. apply Hu.
           assert (HAe : A = ∅) by (unfold A; now rewrite Hnil).
           assert (HUe : A ∪ B = ∅) by (rewrite <- Heq, HAe; set_solver).
           rewrite HUe. apply size_empty.
      * intros [Hsame _].
        assert (HAB : A = B) by (apply set_eq; intros v; rewrite HA, HB; apply Hsame).
        rewrite <- HAB, intersection_self, union_self.
        rewrite <- HAB, union_self in HU. field. lra.
    + split.
      * intros H0 v H1 H2.
        assert (Hsz : size (A ∩ B) = 0%nat).
        { apply INR_eq. apply (Rmult_eq_compat_r (INR (size (A ∪ B)))) in H0.
          unfold Rdiv in H0. rewrite Rmult_assoc, Rinv_l in H0 by lra.
          simpl. lra. }
        apply size_empty_inv, leibniz_equiv in Hsz.
        assert (v ∈ A ∩ B) by (apply elem_of_intersection; rewrite HA, HB; tauto).
        rewrite Hsz in H. set_solver.
      * intros Hdis.
        assert (Hemp : A ∩ B = ∅).
        { apply set_eq. intros v. rewrite elem_of_intersection, HA, HB.
          split; [intros [? ?]; exfalso; eapply Hdis; eauto|set_solver]. }
        rewrite Hemp, size_empty. simpl. unfold Rdiv. ring.
Qed.

(** ** Resonance and entanglement *)

Lemma entanglementStrength_sets (a b : Encoded) :
  entanglementStrength a b =
  0.5 * ((if decide (Nat.max (size (list_to_set (primeSignature a) : gset Z))
                             (size (list_to_set (primeSignature b) : gset Z))
                     = 0%nat)
          then 0
          else INR (size (list_to_set (primeSignature a)
                          ∩ list_to_set (primeSignature b) : gset Z))
               / INR (Nat.max (size (list_to_set (primeSignature a) : gset Z))
                              (size (list_to_set (primeSignature b) : gset Z))))
         + Rabs (dot (quaternion a) (quaternion b))).
Proof. unfold entanglementStrength. now rewrite filter_has_intersection. Qed.

Lemma primeOverlap_range (A B : gset Z) :
  0 <= (if decide (Nat.max (size A) (size B) = 0%nat) then 0
        else INR (size (A ∩ B)) / INR (Nat.max (size A) (size B))) <= 1.
Proof.
  destruct (decide (Nat.max (size A) (size B) = 0%nat)) as [|Hm]; [lra|].
  assert (HM : 0 < INR (Nat.max (size A) (size B))) by (apply lt_0_INR; lia).
  assert (Hle : (size (A ∩ B) <= Nat.max (size A) (size B))%nat).
  { assert (size (A ∩ B) <= size A)%nat by (apply subseteq_size; set_solver).
    lia. }
  apply le_INR in Hle.
  pose proof (pos_INR (size (A ∩ B))) as Hi.
  pose proof (Rinv_0_lt_compat _ HM) as Hinv.
  split.
  - apply Rmult_le_pos; lra.
  - apply (Rmult_le_reg_r (INR (Nat.max (size A) (size B)))); [exact HM|].
    unfold Rdiv. rewrite Rmult_assoc, Rinv_l by lra. lra.
Qed.

Lemma entanglementStrength_nonneg (a b : Encoded) :
  0 <= entanglementStrength a b.
Proof.
  rewrite entanglementStrength_sets.
  pose proof (primeOverlap_range (list_to_set (primeSignature a))
                (list_to_set (primeSignature b))) as Ho.
  pose proof (Rabs_pos (dot (quaternion a) (quaternion b))). lra.
Qed.

Lemma entanglementStrength_le_1 (a b : Encoded) :
  magnitude (quaternion a) = 1 -> magnitude (quaternion b) = 1 ->
  entanglementStrength a b <= 1.
Proof.
  intros Ha Hb. rewrite entanglementStrength_sets.
  pose proof (primeOverlap_range (list_to_set (primeSignature a))
                (list_to_set (primeSignature b))) as Ho.
  pose proof (Rabs_dot_unit _ _ Ha Hb). lra.
Qed.

(** X14.  With weights that are not negative the resonance score is not
    negative and is symmetric in its two arguments; for unit quaternions
    it is at most [alpha + beta], hence at most 1 with the default
    weights. *)
Theorem resonanceScore_bounds (query pattern : Encoded) (alpha beta : R) :
  0 <= alpha -> 0 <= beta ->
  0 <= resonanceScore query pattern alpha beta /\
  resonanceScore query pattern alpha beta =
    resonanceScore pattern query alpha beta /\
  (magnitude (quaternion query) = 1 -> magnitude (quaternion pattern) = 1 ->
   resonanceScore query pattern alpha beta <= alpha + beta /\
   resonanceScoreDefault query pattern <= 1).
Proof.
  intros Ha Hb. unfold resonanceScoreDefault, resonanceScore.
  pose proof (jaccardSimilarity_range (primeSignature query)
                (primeSignature pattern)) as [Hj0 Hj1].
  pose proof (Rabs_pos (dot (quaternion query) (quaternion pattern))) as Hd0.
  split; [|split].
  - apply Rplus_le_le_0_compat; apply Rmult_le_pos; assumption.
  - now rewrite jaccardSimilarity_comm, dot_comm.
  - intros Hq Hp. pose proof (Rabs_dot_unit _ _ Hq Hp) as Hd1.
    split; [nra|lra].
Qed.

Lemma resonanceScore_bounds_witness :
  resonanceScore (mkEncoded (createQuaternion 1 0 0 0) [2%Z])
                 (mkEncoded (createQuaternion 0 1 0 0) [3%Z]) 0.6 0.4
    <= 0.6 + 0.4 /\
  resonanceScoreDefault (mkEncoded (createQuaternion 1 0 0 0) [2%Z])
                        (mkEncoded (createQuaternion 0 1 0 0) [3%Z]) <= 1.
Proof.
  apply (resonanceScore_bounds (mkEncoded (createQuaternion 1 0 0 0) [2%Z])
           (mkEncoded (createQuaternion 0 1 0 0) [3%Z]) 0.6 0.4).
  - lra.
  - lra.
  - exact magnitude_1000.
  - exact magnitude_0100.
Defined.

(** X15.  The entanglement strength is never negative, and for unit
    quaternions it is at most 1. *)
Theorem entanglementStrength_bounds (a b : Encoded) :
  0 <= entanglementStrength a b /\
  (magnitude (quaternion a) = 1 -> magnitude (quaternion b) = 1 ->
   entanglementStrength a b <= 1).
Proof.
  split; [apply entanglementStrength_nonneg|apply entanglementStrength_le_1].
Qed.

Lemma entanglementStrength_bounds_witness :
  entanglementStrength (mkEncoded (createQuaternion 1 0 0 0) [2%Z])
                       (mkEncoded (createQuaternion 0 1 0 0) [3%Z]) <= 1.
Proof.
  apply (entanglementStrength_bounds
           (mkEncoded (createQuaternion 1 0 0 0) [2%Z])
           (mkEncoded (createQuaternion 0 1 0 0) [3%Z])).
  - exact magnitude_1000.
  - exact magnitude_0100.
Defined.

(** The sign of a quaternion does not matter to either score:
    replacing a pattern's quaternion [q] by [-q] changes neither the
    resonance score nor the entanglement strength. *)
Theorem scores_antipode (query pattern : Encoded) (alpha beta : R) :
  resonanceScore query (antipode pattern) alpha beta =
    resonanceScore query pattern alpha beta /\
  entanglementStrength query (antipode pattern) =
    entanglementStrength query pattern.
Proof.
  unfold resonanceScore, entanglementStrength, antipode.
  cbn [quaternion primeSignature].
  now rewrite dot_negate_r, Rabs_Ropp.
Qed.

(** ** Coherence *)







(** ** The Lyapunov estimate *)

Lemma divergenceStep_at (memories : list Memory.t) (acc : R) (i : nat)
    (mi mp : Memory.t) :
  memories !! i = Some mi -> memories !! (i - 1)%nat = Some mp ->
  divergenceStep memories acc i =
  acc + divergence (Memory.quaternion mi) (Memory.quaternion mp).
Proof.
  intros Hi Hp. unfold divergenceStep, divergence. rewrite Hi, Hp.
  cbv zeta. destruct (decide (_ > 0.001)); ring.
Qed.

(** The loop from index [i] on, where [prev] is [memories[i - 1]] and
    [rest] are the memories from [i] on. *)
Lemma divergence_loop (memories rest : list Memory.t) :
  ∀ (prev : Memory.t) (i : nat) (acc : R),
    (1 <= i)%nat ->
    (∀ k, memories !! (i - 1 + k)%nat = (prev :: rest) !! k) ->
    foldl (divergenceStep memories) acc (seq i (length rest)) =
    acc + sumR (divergences (Memory.quaternion <$> prev :: rest)).
Proof.
  induction rest as [|r rest IH]; intros prev i acc Hi Hmem.
  - simpl. ring.
  - cbn [length seq foldl].
    assert (Hr : memories !! i = Some r).
    { replace i with (i - 1 + 1)%nat at 1 by lia. apply Hmem. }
    assert (Hp : memories !! (i - 1)%nat = Some prev).
    { rewrite <- (Nat.add_0_r (i - 1)). apply Hmem. }
    rewrite (divergenceStep_at _ _ _ _ _ Hr Hp).
    rewrite (IH r (S i)); [|lia|].
    + rewrite !fmap_cons. simpl. ring.
    + intros k. change ((r :: rest) !! k) with ((prev :: r :: rest) !! S k).
      rewrite <- Hmem. f_equal. lia.
Qed.

Lemma calculateLyapunov_sum (memories : list Memory.t) :
  calculateLyapunov memories =
  if decide (length memories < 2)%nat then 0
  else sumR (divergences (Memory.quaternion <$> memories))
       / INR (length memories - 1).
Proof.
  unfold calculateLyapunov.
  destruct (decide (length memories < 2)%nat) as [|Hn]; [reflexivity|].
  destruct memories as [|prev rest]; [simpl in Hn; lia|].
  f_equal. replace (length (prev :: rest) - 1)%nat with (length rest)
    by (simpl; lia).
  rewrite (divergence_loop (prev :: rest) rest prev 1 0); [ring|lia|].
  intros k. reflexivity.
Qed.

Lemma distance_comm (a b : Quaternion) : distance a b = distance b a.
Proof. unfold distance, magnitude. simpl. f_equal. ring. Qed.

Lemma divergence_comm (a b : Quaternion) : divergence a b = divergence b a.
Proof. unfold divergence. now rewrite (distance_comm a b). Qed.

Lemma ln_small_neg : ln 0.001 < 0.
Proof. rewrite <- ln_1. apply ln_increasing; lra. Qed.

Lemma divergence_lower (a b : Quaternion) : ln 0.001 <= divergence a b.
Proof.
  unfold divergence. destruct (decide (distance a b > 0.001)) as [Hd|Hd].
  - left. apply ln_increasing; lra.
  - pose proof ln_small_neg. lra.
Qed.

Lemma distance_unit_le (a b : Quaternion) :
  magnitude a = 1 -> magnitude b = 1 -> distance a b <= 2.
Proof.
  intros Ha Hb. pose proof (Rabs_between _ _ (Rabs_dot_unit a b Ha Hb)) as Hd.
  apply magnitude_one_iff in Ha, Hb.
  unfold distance, magnitude. cbn [w x y z].
  rewrite <- (sqrt_square 2) by lra. apply sqrt_le_1_alt.
  unfold sumSquares, dot in *. nra.
Qed.

Lemma divergence_upper (a b : Quaternion) :
  magnitude a = 1 -> magnitude b = 1 -> divergence a b <= ln 2.
Proof.
  intros Ha Hb. unfold divergence.
  pose proof (distance_unit_le a b Ha Hb) as Hd.
  destruct (decide (distance a b > 0.001)) as [Hgt|_].
  - destruct Hd as [Hlt| ->]; [|lra]. left. apply ln_increasing; lra.
  - left. apply ln_2_pos.
Qed.

Lemma divergences_length (qs : list Quaternion) :
  length (divergences qs) = (length qs - 1)%nat.
Proof.
  induction qs as [|q [|q' qs] IH]; [reflexivity..|].
  change (divergences (q :: q' :: qs))
    with (divergence q' q :: divergences (q' :: qs)).
  cbn [length] in *. rewrite IH. lia.
Qed.

Lemma sumR_lower (lo : R) (l : list R) :
  Forall (λ v, lo <= v) l -> INR (length l) * lo <= sumR l.
Proof.
  induction 1 as [|v l Hv _ IH]; [simpl; lra|].
  cbn [length]. rewrite S_INR. simpl. lra.
Qed.

Lemma sumR_upper (hi : R) (l : list R) :
  Forall (λ v, v <= hi) l -> sumR l <= INR (length l) * hi.
Proof.
  induction 1 as [|v l Hv _ IH]; [simpl; lra|].
  cbn [length]. rewrite S_INR. simpl. lra.
Qed.

Lemma sumR_zero (l : list R) : Forall (λ v, v = 0) l -> sumR l = 0.
Proof. induction 1 as [|v l Hv _ IH]; simpl; lra. Qed.

Lemma divergences_Forall (P : R -> Prop) (Q : Quaternion -> Prop)
    (qs : list Quaternion) :
  (∀ a b, Q a -> Q b -> P (divergence a b)) ->
  Forall Q qs -> Forall P (divergences qs).
Proof.
  intros HPQ. induction qs as [|q [|q' qs] IH]; intros Hall;
    [constructor..|].
  change (divergences (q :: q' :: qs))
    with (divergence q' q :: divergences (q' :: qs)).
  inversion Hall as [|? ? Hq Hrest]; subst.
  constructor; [|now apply IH].
  inversion Hrest; subst. now apply HPQ.
Qed.

Lemma divergence_same (q : Quaternion) : divergence q q = 0.
Proof.
  unfold divergence, distance.
  replace (createQuaternion (w q - w q) (x q - x q) (y q - y q) (z q - z q))
    with (createQuaternion 0 0 0 0) by (f_equal; ring).
  rewrite (proj2 (magnitude_zero_iff _) eq_refl).
  rewrite decide_False by lra. reflexivity.
Qed.

(** X18.  The Lyapunov estimate of fewer than two memories is 0.  It is
    never below [ln 0.001]; for unit quaternions it is at most [ln 2];
    and it is 0 when all memories have the same quaternion (a distance
    of 0 is skipped, its logarithm is never taken). *)
Theorem calculateLyapunov_bounds (memories : list Memory.t) :
  ((length memories < 2)%nat -> calculateLyapunov memories = 0) /\
  ln 0.001 <= calculateLyapunov memories /\
  (Forall (λ mem, magnitude (Memory.quaternion mem) = 1) memories ->
   calculateLyapunov memories <= ln 2) /\
  (∀ q0, Forall (λ mem, Memory.quaternion mem = q0) memories ->
         calculateLyapunov memories = 0).
Proof.
  rewrite calculateLyapunov_sum.
  destruct (decide (length memories < 2)%nat) as [Hn|Hn].
  { pose proof ln_small_neg. pose proof ln_2_pos.
    repeat split; intros; lra. }
  set (qs := Memory.quaternion <$> memories).
  assert (Hlen : length (divergences qs) = (length memories - 1)%nat)
    by (unfold qs; now rewrite divergences_length, length_fmap).
  assert (HN : 0 < INR (length memories - 1)) by (apply lt_0_INR; lia).
  pose proof (Rinv_0_lt_compat _ HN) as Hinv.
  split; [intros; lia|]. split; [|split].
  - assert (Hall : Forall (λ v, ln 0.001 <= v) (divergences qs)).
    { apply (divergences_Forall _ (λ _, True)).
      - intros a b _ _. apply divergence_lower.
      - apply Forall_forall. intros; exact I. }
    apply sumR_lower in Hall. rewrite Hlen in Hall.
    apply (Rmult_le_reg_r (INR (length memories - 1))); [exact HN|].
    unfold Rdiv. rewrite Rmult_assoc, Rinv_l by lra. lra.
  - intros Hunit.
    assert (Hall : Forall (λ v, v <= ln 2) (divergences qs)).
    { apply (divergences_Forall _ (λ q, magnitude q = 1)).
      - intros a b. apply divergence_upper.
      - unfold qs. now rewrite Forall_fmap. }
    apply sumR_upper in Hall. rewrite Hlen in Hall.
    apply (Rmult_le_reg_r (INR (length memories - 1))); [exact HN|].
    unfold Rdiv. rewrite Rmult_assoc, Rinv_l by lra. lra.
  - intros q0 Hsame.
    assert (Hall : Forall (λ v, v = 0) (divergences qs)).
    { apply (divergences_Forall _ (λ q, q = q0)).
      - intros a b -> ->. apply divergence_same.
      - unfold qs. now rewrite Forall_fmap. }
    rewrite (sumR_zero _ Hall). unfold Rdiv. ring.
Qed.

Lemma calculateLyapunov_bounds_witness :
  calculateLyapunov [Memory.make [] [] (createQuaternion 1 0 0 0) [] 0] = 0 /\
  calculateLyapunov
    [Memory.make [] [] (createQuaternion 1 0 0 0) [] 0;
     Memory.make [] [] (createQuaternion 0 1 0 0) [] 1] <= ln 2 /\
  calculateLyapunov
    [Memory.make [] [] (createQuaternion 1 0 0 0) [] 0;
     Memory.make [] [] (createQuaternion 1 0 0 0) [] 1] = 0.
Proof.
  split; [|split].
  - apply (calculateLyapunov_bounds
             [Memory.make [] [] (createQuaternion 1 0 0 0) [] 0]).
    simpl. lia.
  - apply (calculateLyapunov_bounds
             [Memory.make [] [] (createQuaternion 1 0 0 0) [] 0;
              Memory.make [] [] (createQuaternion 0 1 0 0) [] 1]).
    repeat constructor; simpl; [exact magnitude_1000|exact magnitude_0100].
  - apply (calculateLyapunov_bounds
             [Memory.make [] [] (createQuaternion 1 0 0 0) [] 0;
              Memory.make [] [] (createQuaternion 1 0 0 0) [] 1]
             ) with (q0 := createQuaternion 1 0 0 0).
    repeat constructor.
Defined.

Lemma divergences_snoc (qs : list Quaternion) (q : Quaternion) :
  divergences (qs ++ [q]) =
  divergences qs ++ match last qs with
                    | Some p => [divergence q p]
                    | None => []
                    end.
Proof.
  induction qs as [|p [|p' qs] IH]; [reflexivity..|].
  change ((p :: p' :: qs) ++ [q]) with (p :: p' :: (qs ++ [q])).
  change (divergences (p :: p' :: (qs ++ [q])))
    with (divergence p' p :: divergences ((p' :: qs) ++ [q])).
  rewrite IH. reflexivity.
Qed.

Lemma sumR_app (l k : list R) : sumR (l ++ k) = sumR l + sumR k.
Proof. induction l as [|v l IH]; simpl; [ring|rewrite IH; ring]. Qed.

Lemma sumR_divergences_reverse (qs : list Quaternion) :
  sumR (divergences (reverse qs)) = sumR (divergences qs).
Proof.
  induction qs as [|q qs IH]; [reflexivity|].
  rewrite reverse_cons, divergences_snoc, sumR_app, IH, last_reverse.
  destruct qs as [|q' qs]; [simpl; ring|].
  change (divergences (q :: q' :: qs))
    with (divergence q' q :: divergences (q' :: qs)).
  simpl. rewrite (divergence_comm q q'). ring.
Qed.

(** X19.  The Lyapunov estimate does not see the direction of time: the
    reversed collection has the same estimate. *)
Theorem calculateLyapunov_reverse (memories : list Memory.t) :
  calculateLyapunov (reverse memories) = calculateLyapunov memories.
Proof.
  rewrite !calculateLyapunov_sum, length_reverse, fmap_reverse.
  now rewrite sumR_divergences_reverse.
Qed.

(** ** Search *)

Lemma insertResult_perm r l : insertResult r l ≡ₚ r :: l.
Proof.
  induction l as [|d l IH]; [reflexivity|]. simpl.
  destruct (decide (_ <= 0)); [|reflexivity].
  rewrite IH. apply Permutation_swap.
Qed.

Lemma insertResult_descending r l :
  descendingResults l -> descendingResults (insertResult r l).
Proof.
  unfold descendingResults. induction 1 as [|d l Hl IH Hd]; simpl.
  - repeat constructor.
  - unfold byResonance. destruct (decide (_ <= 0)) as [Hge|Hlt].
    + constructor; [exact IH|].
      rewrite insertResult_perm. constructor; [lra|exact Hd].
    + constructor; [now constructor|].
      constructor; [lra|].
      eapply Forall_impl; [exact Hd|]. simpl. intros b Hb. lra.
Qed.

Lemma sortResults_perm l : sortResults l ≡ₚ l.
Proof.
  unfold sortResults.
  assert (Hgen : ∀ acc, foldl (λ sorted r, insertResult r sorted) acc l
                        ≡ₚ l ++ acc).
  { induction l as [|r l IH]; intros acc; [reflexivity|].
    simpl. rewrite IH, insertResult_perm.
    now rewrite Permutation_middle. }
  now rewrite Hgen, app_nil_r.
Qed.

Lemma sortResults_descending l : descendingResults (sortResults l).
Proof.
  unfold sortResults.
  assert (Hgen : ∀ acc, descendingResults acc ->
            descendingResults (foldl (λ sorted r, insertResult r sorted) acc l)).
  { induction l as [|r l IH]; intros acc Hacc; [exact Hacc|].
    simpl. apply IH, insertResult_descending, Hacc. }
  apply Hgen. constructor.
Qed.

Lemma descendingResults_app (l k : list SearchResult) :
  descendingResults (l ++ k) ->
  descendingResults l /\
  Forall (λ r, Forall (λ r', resonance r >= resonance r') k) l.
Proof.
  unfold descendingResults. induction l as [|r l IH]; simpl; intros Hs.
  - split; constructor.
  - inversion Hs as [|? ? Hl Hr]; subst. destruct (IH Hl) as [IH1 IH2].
    apply Forall_app in Hr as [Hr1 Hr2].
    split; constructor; assumption.
Qed.

Section SearchFacts.

Variable toLowerCase : jsstring -> jsstring.

Lemma candidates_length settings query (memories : list Memory.t) :
  (length (candidates toLowerCase settings query memories)
   <= length memories)%nat.
Proof.
  unfold candidates. destruct (decide (minResonance settings > 0)).
  - etransitivity; [apply length_filter|]. now rewrite length_fmap.
  - now rewrite length_fmap.
Qed.

Lemma candidates_elem settings query (memories : list Memory.t) r :
  r ∈ candidates toLowerCase settings query memories ->
  (∃ memory, memory ∈ memories /\
     r = scoreMemory (encodeText toLowerCase query) (alphaWeight settings)
                     (betaWeight settings) memory) /\
  (minResonance settings <= 0 \/ resonance r >= minResonance settings).
Proof.
  unfold candidates. destruct (decide (minResonance settings > 0)) as [Hm|Hm].
  - rewrite list_elem_of_filter, list_elem_of_fmap.
    intros [Hr (m & -> & Hin)]. split; [now exists m|now right].
  - rewrite list_elem_of_fmap. intros (m & -> & Hin).
    split; [now exists m|left; lra].
Qed.

(** X20.  The search returns at most [maxResults] results and at most one
    per memory, in descending order of resonance; each result is the
    scored record of a memory of the collection, and, when a minimum
    resonance above 0 is set, reaches it. *)
Theorem topResults_properties settings query (memories : list Memory.t) :
  (length (topResults toLowerCase settings query memories)
   <= Nat.min (maxResults settings) (length memories))%nat /\
  descendingResults (topResults toLowerCase settings query memories) /\
  Forall (λ r,
            (∃ memory, memory ∈ memories /\
               r = scoreMemory (encodeText toLowerCase query)
                     (alphaWeight settings) (betaWeight settings) memory) /\
            (minResonance settings <= 0 \/
             resonance r >= minResonance settings))
         (topResults toLowerCase settings query memories).
Proof.
  unfold topResults.
  set (cands := candidates toLowerCase settings query memories).
  split; [|split].
  - rewrite length_take.
    pose proof (candidates_length settings query memories) as Hl.
    fold cands in Hl. rewrite (Permutation_length (sortResults_perm cands)).
    lia.
  - pose proof (sortResults_descending cands) as Hs.
    rewrite <- (take_drop (maxResults settings) (sortResults cands)) in Hs.
    now apply descendingResults_app in Hs.
  - apply Forall_forall. intros r Hr.
    apply (candidates_elem settings query memories).
    fold cands. rewrite <- (sortResults_perm cands).
    apply elem_of_take in Hr as (i & Hi & _).
    eapply list_elem_of_lookup_2. exact Hi.
Qed.

(** X21.  Cutting to [maxResults] keeps the best: the returned results
    together with the dropped ones are the candidates, and no dropped
    result has a higher resonance than a returned one. *)
Theorem topResults_best settings query (memories : list Memory.t) :
  let sorted :=
    sortResults (candidates toLowerCase settings query memories) in
  let dropped := drop (maxResults settings) sorted in
  topResults toLowerCase settings query memories ++ dropped
    ≡ₚ candidates toLowerCase settings query memories /\
  Forall (λ r, Forall (λ r', resonance r >= resonance r') dropped)
         (topResults toLowerCase settings query memories).
Proof.
  intros sorted dropped. unfold topResults. fold sorted. split.
  - unfold dropped. rewrite take_drop. apply sortResults_perm.
  - pose proof (sortResults_descending
                  (candidates toLowerCase settings query memories)) as Hs.
    fold sorted in Hs.
    rewrite <- (take_drop (maxResults settings) sorted) in Hs.
    now apply descendingResults_app in Hs.
Qed.

End SearchFacts.

Lemma resonanceScore_upper (query pattern : Encoded) (alpha beta : R) :
  0 <= alpha -> 0 <= beta ->
  magnitude (quaternion query) = 1 -> magnitude (quaternion pattern) = 1 ->
  resonanceScore query pattern alpha beta <= alpha + beta.
Proof.
  intros Ha Hb Hq Hp. unfold resonanceScore.
  pose proof (jaccardSimilarity_range (primeSignature query)
                (primeSignature pattern)) as [_ Hj].
  pose proof (Rabs_dot_unit _ _ Hq Hp) as Hd.
  pose proof (Rabs_pos (dot (quaternion query) (quaternion pattern))). nra.
Qed.

Lemma resonanceScore_exact (e : Encoded) (alpha beta : R) :
  magnitude (quaternion e) = 1 -> primeSignature e <> [] ->
  resonanceScore e e alpha beta = alpha + beta.
Proof.
  intros Hq Hs. unfold resonanceScore.
  rewrite jaccardSimilarity_self by exact Hs.
  rewrite dot_self, Hq. replace (1 * 1) with 1 by ring.
  rewrite Rabs_R1. ring.
Qed.

Lemma descendingResults_head (r : SearchResult) (l : list SearchResult) :
  descendingResults (r :: l) -> ∀ r', r' ∈ r :: l -> resonance r >= resonance r'.
Proof.
  intros Hs r' Hr'. inversion Hs as [|? ? _ Hall]; subst.
  apply elem_of_cons in Hr' as [->|Hr']; [lra|].
  rewrite Forall_forall in Hall. now apply Hall.
Qed.

Lemma sum_sizes_perm (l l' : list Cluster.t) :
  l ≡ₚ l' ->
  sum_list (length ∘ Cluster.results <$> l) =
  sum_list (length ∘ Cluster.results <$> l').
Proof.
  induction 1 as [|c l l' _ IH|c d l|l l' l'' _ IH _ IH'];
    rewrite ?fmap_cons; cbn [sum_list sum_list_with]; lia.
Qed.

Lemma sum_sizes_specCluster (G : list (list SearchResult)) :
  ∀ k0, sum_list (length ∘ Cluster.results
                    <$> imap (λ k, specCluster (k0 + k)) G)
        = length (concat G).
Proof.
  induction G as [|members G IH]; intros k0; [reflexivity|].
  rewrite imap_cons, fmap_cons. cbn [sum_list sum_list_with concat].
  rewrite length_app.
  rewrite (imap_ext _ (λ k, specCluster (S k0 + k)))
    by (intros; simpl; f_equal; lia).
  rewrite IH. unfold compose, specCluster. simpl.
  now rewrite length_fmap.
Qed.

(** The cluster sizes add up to the number of results. *)
Lemma clusterResults_total (results : list SearchResult) (threshold : R) :
  sum_list (length ∘ Cluster.results <$> clusterResults results threshold)
  = length results.
Proof.
  unfold clusterResults.
  destruct (decide (length results = 0%nat)) as [Hz|Hnz]; [now rewrite Hz|].
  cbv zeta. rewrite (sum_sizes_perm _ _ (sortDesc_perm _)).
  rewrite clusterList_greedy.
  rewrite (imap_ext _ (λ k, specCluster (0 + k))) by reflexivity.
  rewrite sum_sizes_specCluster.
  apply Permutation_length, greedy_partition.
Qed.

Section SearchRanking.

Variable toLowerCase : jsstring -> jsstring.
Variable trim : jsstring -> jsstring.

(** X22.  A stored copy of the query ranks first with the highest
    possible score: when the weights are not negative, all stored
    quaternions are unit, the (non-empty) query has the same encoding as
    some memory of the collection, the minimum resonance does not exceed
    [alpha + beta] and at least one result is asked for, the first result
    has resonance [alpha + beta], and no result has more. *)
Theorem topResults_exact_match settings query (memories : list Memory.t)
    (memory : Memory.t) :
  0 <= alphaWeight settings -> 0 <= betaWeight settings ->
  Forall (λ m, magnitude (Memory.quaternion m) = 1) memories ->
  memory ∈ memories ->
  Memory.encoded memory = encodeText toLowerCase query ->
  toLowerCase query <> [] ->
  minResonance settings <= alphaWeight settings + betaWeight settings ->
  (1 <= maxResults settings)%nat ->
  ∃ first rest,
    topResults toLowerCase settings query memories = first :: rest /\
    resonance first = alphaWeight settings + betaWeight settings /\
    Forall (λ r, resonance r <= alphaWeight settings + betaWeight settings)
           (first :: rest).
Proof.
  intros Ha Hb Hunit Hin Henc Hne Hmin Hmax.
  set (alpha := alphaWeight settings) in *.
  set (beta := betaWeight settings) in *.
  set (e := encodeText toLowerCase query) in *.
  assert (He : magnitude (quaternion e) = 1) by apply encodeChars_unit.
  assert (Hsig : primeSignature e <> [])
    by now apply encodeChars_signature_nonempty.
  set (hit := scoreMemory e alpha beta memory).
  assert (Hhit : resonance hit = alpha + beta).
  { unfold hit, scoreMemory. cbn [resonance]. rewrite Henc.
    now apply resonanceScore_exact. }
  set (cands := candidates toLowerCase settings query memories).
  assert (Hcand : hit ∈ cands).
  { unfold cands, candidates. fold e alpha beta.
    destruct (decide (minResonance settings > 0)).
    - apply list_elem_of_filter. split; [rewrite Hhit; lra|].
      apply list_elem_of_fmap. now exists memory.
    - apply list_elem_of_fmap. now exists memory. }
  assert (Hle : ∀ r, r ∈ cands -> resonance r <= alpha + beta).
  { intros r Hr.
    apply candidates_elem in Hr as [(m & Hm & ->) _].
    unfold scoreMemory. cbn [resonance].
    apply resonanceScore_upper; try assumption.
    rewrite Forall_forall in Hunit. now apply Hunit. }
  pose proof (sortResults_perm cands) as Hperm.
  pose proof (sortResults_descending cands) as Hsorted.
  unfold topResults. fold cands.
  destruct (sortResults cands) as [|first sorted] eqn:Hs.
  { exfalso. rewrite <- Hperm in Hcand. inversion Hcand. }
  destruct (maxResults settings) as [|n] eqn:Hn; [lia|].
  exists first, (take n sorted). split; [reflexivity|].
  assert (Hfirst : resonance first <= alpha + beta).
  { apply Hle. rewrite <- Hperm. now left. }
  split.
  - pose proof (descendingResults_head _ _ Hsorted hit) as Hh.
    rewrite Hperm in Hh. specialize (Hh Hcand). lra.
  - apply Forall_forall. intros r Hr. apply Hle. rewrite <- Hperm.
    apply elem_of_cons in Hr as [->|Hr]; [now left|right].
    apply elem_of_take in Hr as (i & Hi & _).
    eapply list_elem_of_lookup_2. exact Hi.
Qed.

(** X23.  A search with a blank query or an empty collection leaves the
    clusters on display as they are.  Any other search puts every top
    result in the new clusters exactly as many times as it occurs: with
    clustering or without, the sizes of the returned clusters add up to
    the number of top results. *)
Theorem handleSearch_properties settings query (memories : list Memory.t)
    (clusters : list Cluster.t) :
  (trim query = [] \/ memories = [] ->
   handleSearch toLowerCase trim settings query memories clusters = clusters) /\
  (trim query <> [] -> memories <> [] ->
   sum_list (length ∘ Cluster.results
               <$> handleSearch toLowerCase trim settings query memories clusters)
   = length (topResults toLowerCase settings query memories)).
Proof.
  unfold handleSearch. split.
  - intros Hblank. rewrite decide_True; [reflexivity|].
    destruct Hblank as [Hq| ->]; [now left|now right].
  - intros Hq Hm. rewrite decide_False.
    + cbv zeta. destruct (enableClustering settings).
      * apply clusterResults_total.
      * simpl. lia.
    + intros [?|Hz]; [contradiction|].
      destruct memories; [contradiction|discriminate].
Qed.

End SearchRanking.

(** A collection that holds "hi", searched for "HI". *)
Lemma topResults_exact_match_witness :
  ∃ first rest,
    topResults asciiLower defaultSettings [72; 73]%Z
      [Memory.make [] (primeSignature (encodeText asciiLower [104; 105]%Z))
                   (quaternion (encodeText asciiLower [104; 105]%Z))
                   [104; 105]%Z 0] = first :: rest /\
    resonance first = 0.5 + 0.5 /\
    Forall (λ r, resonance r <= 0.5 + 0.5) (first :: rest).
Proof.
  apply (topResults_exact_match asciiLower defaultSettings [72; 73]%Z _
           (Memory.make [] (primeSignature (encodeText asciiLower [104; 105]%Z))
                        (quaternion (encodeText asciiLower [104; 105]%Z))
                        [104; 105]%Z 0)).
  - simpl. lra.
  - simpl. lra.
  - repeat constructor. apply encodeChars_unit.
  - now left.
  - reflexivity.
  - simpl. discriminate.
  - simpl. lra.
  - simpl. lia.
Defined.

(** A blank query, and a search among two memories. *)
Lemma handleSearch_properties_witness :
  handleSearch asciiLower (λ _, []) defaultSettings [32]%Z
    [Memory.make [] [2%Z] (createQuaternion 1 0 0 0) [] 0] [] = [] /\
  sum_list (length ∘ Cluster.results
              <$> handleSearch asciiLower (λ q, q) defaultSettings [104]%Z
                    [Memory.make [] [2%Z] (createQuaternion 1 0 0 0) [] 0;
                     Memory.make [] [3%Z] (createQuaternion 0 1 0 0) [] 1] [])
  = length (topResults asciiLower defaultSettings [104]%Z
              [Memory.make [] [2%Z] (createQuaternion 1 0 0 0) [] 0;
               Memory.make [] [3%Z] (createQuaternion 0 1 0 0) [] 1]).
Proof.
  split.
  - apply (handleSearch_properties asciiLower (λ _, []) defaultSettings
             [32]%Z [Memory.make [] [2%Z] (createQuaternion 1 0 0 0) [] 0] []).
    now left.
  - apply (handleSearch_properties asciiLower (λ q, q) defaultSettings
             [104]%Z
             [Memory.make [] [2%Z] (createQuaternion 1 0 0 0) [] 0;
              Memory.make [] [3%Z] (createQuaternion 0 1 0 0) [] 1] []).
    + discriminate.
    + discriminate.
Defined.

(** ** The memory list *)

Lemma entanglementStrength_comm (a b : Encoded) :
  entanglementStrength a b = entanglementStrength b a.
Proof.
  rewrite !entanglementStrength_sets.
  rewrite (dot_comm (quaternion a)), Nat.max_comm.
  now rewrite (comm_L (∩) (list_to_set (primeSignature a) : gset Z)).
Qed.

Lemma getEntanglementCount_filter (memories : list Memory.t)
    (memory : Memory.t) :
  getEntanglementCount memories memory =
  length (filter (linkShown memory) memories).
Proof.
  unfold getEntanglementCount.
  assert (Hgen : ∀ n,
    foldl (λ count other,
             if decide (Memory.id other ≠ Memory.id memory) then
               let strength :=
                 entanglementStrength (Memory.encoded memory)
                                      (Memory.encoded other) in
               if decide (strength >= 0.3) then S count else count
             else count) n memories
    = (n + length (filter (linkShown memory) memories))%nat).
  { induction memories as [|other ms IH]; intros n; [simpl; lia|].
    cbn [foldl]. rewrite IH, filter_cons.
    destruct (decide (linkShown memory other)) as [[Hid Hs]|Hn].
    - rewrite decide_True by exact Hid. cbv zeta.
      rewrite decide_True by exact Hs. cbn [length]. lia.
    - destruct (decide (Memory.id other ≠ Memory.id memory)) as [Hid|Hid];
        [|lia].
      cbv zeta. destruct (decide (_ >= 0.3)) as [Hs|Hs]; [|lia].
      exfalso. apply Hn. now split. }
  apply Hgen.
Qed.

(** X24.  A memory is never counted as linked to itself, nor is any
    memory with the same id: for a memory of the list the count is below
    the length of the list.  The link is mutual: [other] is counted for
    [memory] exactly when [memory] is counted for [other]. *)
Theorem getEntanglementCount_properties (memories : list Memory.t)
    (memory other : Memory.t) :
  (getEntanglementCount memories memory <= length memories)%nat /\
  (memory ∈ memories ->
   (getEntanglementCount memories memory < length memories)%nat) /\
  (linkShown memory other <-> linkShown other memory).
Proof.
  rewrite getEntanglementCount_filter. split; [apply length_filter|]. split.
  - intros Hin. apply list_elem_of_split in Hin as (l1 & l2 & ->).
    rewrite filter_app, filter_cons_False by (intros [Hid _]; now apply Hid).
    rewrite !length_app. cbn [length].
    pose proof (length_filter (linkShown memory) l1).
    pose proof (length_filter (linkShown memory) l2). lia.
  - unfold linkShown. rewrite (entanglementStrength_comm (Memory.encoded memory)).
    split; intros [Hid Hs]; (split; [congruence|exact Hs]).
Qed.

Lemma getEntanglementCount_properties_witness :
  (getEntanglementCount
     [Memory.make [1%Z] [2%Z] (createQuaternion 1 0 0 0) [] 0;
      Memory.make [2%Z] [2%Z] (createQuaternion 1 0 0 0) [] 1]
     (Memory.make [1%Z] [2%Z] (createQuaternion 1 0 0 0) [] 0) < 2)%nat.
Proof.
  apply (getEntanglementCount_properties
           [Memory.make [1%Z] [2%Z] (createQuaternion 1 0 0 0) [] 0;
            Memory.make [2%Z] [2%Z] (createQuaternion 1 0 0 0) [] 1]
           (Memory.make [1%Z] [2%Z] (createQuaternion 1 0 0 0) [] 0)
           (Memory.make [1%Z] [2%Z] (createQuaternion 1 0 0 0) [] 0)).
  now left.
Defined.

(** ** Compression metrics *)

Lemma collectPrimes_sig (sig : list Z) (allPrimes : gset Z) :
  foldl (λ allPrimes p, {[p]} ∪ allPrimes) allPrimes sig
  = list_to_set sig ∪ allPrimes.
Proof.
  revert allPrimes. induction sig as [|p sig IH]; intros allPrimes; simpl.
  - set_solver.
  - rewrite IH. set_solver.
Qed.

Lemma collectPrimes_fold (memories : list Memory.t) (st : gset Z * nat) :
  foldl collectPrimes st memories =
  (list_to_set (allEntries memories) ∪ st.1,
   (st.2 + length (allEntries memories))%nat).
Proof.
  unfold allEntries. revert st.
  induction memories as [|m ms IH]; intros [allPrimes total].
  - simpl. f_equal; [set_solver|lia].
  - rewrite fmap_cons. cbn [foldl concat]. rewrite IH.
    unfold collectPrimes. cbn [fst snd].
    rewrite collectPrimes_sig, list_to_set_app_L, length_app.
    f_equal; [set_solver|lia].
Qed.

Lemma distinctPrimes_length (entries : list Z) :
  (length (distinctPrimes entries) <= length entries)%nat.
Proof.
  unfold distinctPrimes.
  apply submseteq_length, NoDup_submseteq; [apply NoDup_elements|].
  intros v. now rewrite elem_of_elements, elem_of_list_to_set.
Qed.

Section CompressionFacts.

Variable utf8Length : jsstring -> nat.

Lemma calculateCompression_sizes_aux (memories : list Memory.t) :
  memories <> [] ->
  let d := calculateCompression utf8Length memories in
  let n := length memories in
  let u := length (distinctPrimes (allEntries memories)) in
  CompressionData.uniquePrimes d = u /\
  CompressionData.quaternionBytes d = (32 * n)%nat /\
  CompressionData.encodedBytes d = (32 * n + 4 * u + n * ((u + 7) / 8))%nat.
Proof.
  intros Hne d n u. unfold d, calculateCompression.
  rewrite decide_False by (destruct memories; [done|discriminate]).
  cbv zeta. cbn [CompressionData.uniquePrimes CompressionData.quaternionBytes
                 CompressionData.encodedBytes].
  rewrite collectPrimes_fold. cbn [fst snd].
  rewrite (right_id_L ∅ (∪)).
  change (size (list_to_set (allEntries memories) : gset Z)) with u.
  fold n. repeat split; lia.
Qed.

(** X25.  For a non-empty collection the encoded size is 32 bytes per
    memory, 4 bytes per distinct prime of the field and one bitmap of
    [ceil(u / 8)] bytes per memory, where [u], the reported number of
    unique primes, is the number of distinct signature entries and is at
    most their total number; the information density is positive and at
    most 1/32. *)
Theorem calculateCompression_sizes (memories : list Memory.t) :
  memories <> [] ->
  let d := calculateCompression utf8Length memories in
  let n := length memories in
  let u := length (distinctPrimes (allEntries memories)) in
  CompressionData.uniquePrimes d = u /\
  (u <= length (allEntries memories))%nat /\
  CompressionData.quaternionBytes d = (32 * n)%nat /\
  CompressionData.encodedBytes d = (32 * n + 4 * u + n * ((u + 7) / 8))%nat /\
  0 < CompressionData.informationDensity d <= 1 / 32.
Proof.
  intros Hne d n u.
  destruct (calculateCompression_sizes_aux memories Hne) as (Hu & Hq & He).
  fold d n u in Hu, Hq, He.
  split; [exact Hu|]. split; [apply distinctPrimes_length|].
  split; [exact Hq|]. split; [exact He|].
  assert (Hn : (1 <= n)%nat) by (unfold n; destruct memories; [done|simpl; lia]).
  assert (Hd : CompressionData.informationDensity d =
               INR n / INR (CompressionData.encodedBytes d)).
  { unfold d, calculateCompression.
    rewrite decide_False by (destruct memories; [done|discriminate]).
    cbv zeta. cbn [CompressionData.informationDensity CompressionData.encodedBytes].
    rewrite decide_True; [reflexivity|]. fold n. lia. }
  rewrite Hd, He.
  set (rest := (4 * u + n * ((u + 7) / 8))%nat).
  replace (32 * n + 4 * u + n * ((u + 7) / 8))%nat with (32 * n + rest)%nat
    by (unfold rest; lia).
  rewrite plus_INR, mult_INR.
  replace (INR 32) with 32 by (rewrite (INR_IZR_INZ 32); reflexivity).
  assert (HN : 1 <= INR n) by (change 1 with (INR 1); now apply le_INR).
  pose proof (pos_INR rest) as Hrest.
  assert (Hden : 0 < 32 * INR n + INR rest) by lra.
  pose proof (Rinv_0_lt_compat _ Hden) as Hinv.
  split.
  - apply Rmult_lt_0_compat; lra.
  - apply (Rmult_le_reg_r (32 * INR n + INR rest)); [exact Hden|].
    unfold Rdiv. rewrite Rmult_assoc, Rinv_l by lra. lra.
Qed.

(** X26.  When the contents hold at least one byte, the space savings
    are [100 (1 - 1 / compressionRatio)] percent: below 100, and positive
    exactly when the compression ratio is above 1.  When the contents
    are all empty the ratio is reported as 1 and the savings as 0. *)
Theorem calculateCompression_ratio (memories : list Memory.t) :
  memories <> [] ->
  let d := calculateCompression utf8Length memories in
  ((0 < CompressionData.rawBytes d)%nat ->
   CompressionData.spaceSavings d
     = 100 * (1 - 1 / CompressionData.compressionRatio d) /\
   CompressionData.spaceSavings d < 100 /\
   (CompressionData.compressionRatio d > 1 <->
    CompressionData.spaceSavings d > 0)) /\
  (CompressionData.rawBytes d = 0%nat ->
   CompressionData.compressionRatio d = 1 /\
   CompressionData.spaceSavings d = 0).
Proof.
  intros Hne d.
  destruct (calculateCompression_sizes_aux memories Hne) as (_ & _ & He).
  fold d in He.
  assert (Hn : (1 <= length memories)%nat)
    by (destruct memories; [done|simpl; lia]).
  assert (Henc : 0 < INR (CompressionData.encodedBytes d)).
  { apply lt_0_INR. rewrite He. lia. }
  set (raw := CompressionData.rawBytes d).
  set (enc := CompressionData.encodedBytes d) in *.
  assert (Hratio : CompressionData.compressionRatio d =
                   if decide (0 < raw)%nat then INR raw / INR enc else 1).
  { unfold raw, enc, d, calculateCompression.
    rewrite decide_False by (destruct memories; [done|discriminate]).
    reflexivity. }
  assert (Hsave : CompressionData.spaceSavings d =
                  if decide (0 < raw)%nat
                  then (INR raw - INR enc) / INR raw * 100 else 0).
  { unfold raw, enc, d, calculateCompression.
    rewrite decide_False by (destruct memories; [done|discriminate]).
    reflexivity. }
  rewrite Hratio, Hsave. split.
  - intros Hraw. rewrite !decide_True by exact Hraw.
    assert (HR : 0 < INR raw) by now apply lt_0_INR.
    pose proof (Rinv_0_lt_compat _ HR) as Hir.
    pose proof (Rinv_0_lt_compat _ Henc) as Hie.
    assert (Hs : (INR raw - INR enc) / INR raw * 100
                 = 100 * (1 - INR enc * / INR raw)) by (field; lra).
    assert (Hpos : 0 < INR enc * / INR raw) by (apply Rmult_lt_0_compat; lra).
    split; [|split].
    + rewrite Hs. f_equal. f_equal. field. lra.
    + rewrite Hs. lra.
    + rewrite Hs. split.
      * intros Hgt.
        assert (INR enc < INR raw).
        { apply (Rmult_lt_reg_r (/ INR enc)); [exact Hie|].
          rewrite Rinv_r by lra. unfold Rdiv in Hgt. lra. }
        assert (INR enc * / INR raw < 1).
        { apply (Rmult_lt_reg_r (INR raw)); [exact HR|].
          rewrite Rmult_assoc, Rinv_l by lra. lra. }
        lra.
      * intros Hgt.
        assert (Hlt : INR enc * / INR raw < 1) by lra.
        assert (INR enc < INR raw).
        { apply (Rmult_lt_compat_r (INR raw)) in Hlt; [|exact HR].
          rewrite Rmult_assoc, Rinv_l in Hlt by lra. lra. }
        apply Rlt_gt. apply (Rmult_lt_reg_r (INR enc)); [exact Henc|].
        unfold Rdiv. rewrite Rmult_assoc, Rinv_l by lra. lra.
  - intros Hz. rewrite !decide_False by lia. now split.
Qed.

End CompressionFacts.

(** One memory of content "hi" under the ASCII byte count. *)
Lemma calculateCompression_sizes_witness :
  CompressionData.encodedBytes
    (calculateCompression length
       [Memory.make [] [2; 3]%Z (createQuaternion 1 0 0 0) [104; 105]%Z 0])
  = (32 * 1 + 4 * 2 + 1 * ((2 + 7) / 8))%nat.
Proof.
  apply (calculateCompression_sizes length
           [Memory.make [] [2; 3]%Z (createQuaternion 1 0 0 0) [104; 105]%Z 0]).
  discriminate.
Defined.

Lemma calculateCompression_ratio_witness :
  CompressionData.spaceSavings
    (calculateCompression length
       [Memory.make [] [2; 3]%Z (createQuaternion 1 0 0 0) [104; 105]%Z 0])
  < 100 /\
  CompressionData.compressionRatio
    (calculateCompression length
       [Memory.make [] [2; 3]%Z (createQuaternion 1 0 0 0) [] 0]) = 1.
Proof.
  split.
  - apply (calculateCompression_ratio length
             [Memory.make [] [2; 3]%Z (createQuaternion 1 0 0 0) [104; 105]%Z 0]).
    + discriminate.
    + simpl. lia.
  - apply (calculateCompression_ratio length
             [Memory.make [] [2; 3]%Z (createQuaternion 1 0 0 0) [] 0]).
    + discriminate.
    + reflexivity.
Defined.

(** ** Page state *)

Lemma handle_displaysSelection (s : App.state) (e : App.event) :
  App.displaysSelection s -> App.displaysSelection (App.handle s e).
Proof.
  unfold App.displaysSelection. intros Hs.
  destruct e as [uuid now content q sig|memory|id| |newMemories];
    cbn [App.handle].
  - reflexivity.
  - reflexivity.
  - unfold App.handleDeleteMemory.
    destruct (App.selectedMemory s) as [selected|] eqn:Hsel.
    + destruct (decide (Memory.id selected = id)); cbn; [reflexivity|exact Hs].
    + exact Hs.
  - reflexivity.
  - destruct newMemories as [|first rest]; cbn; [exact Hs|reflexivity].
Qed.

Lemma foldl_handle_displaysSelection (events : list App.event) (s : App.state) :
  App.displaysSelection s -> App.displaysSelection (foldl App.handle s events).
Proof.
  revert s. induction events as [|e events IH]; intros s Hs; [exact Hs|].
  cbn [foldl]. apply IH, handle_displaysSelection, Hs.
Qed.

(** X27.  After any sequence of encode, select, delete, clear and
    generate events the active quaternion is the quaternion of the
    selected memory, and the identity quaternion when nothing is
    selected. *)
Theorem run_displaysSelection (events : list App.event) :
  App.displaysSelection (App.run events).
Proof.
  apply foldl_handle_displaysSelection. reflexivity.
Qed.

Lemma twoNotes_state :
  twoNotes = App.mkState [noteB; noteA] (Some noteB) (createQuaternion 0 1 0 0).
Proof. reflexivity. Qed.

Lemma twoNotes_delete_A :
  App.handle twoNotes (App.Delete [1]%Z)
  = App.mkState [noteB] (Some noteB) (createQuaternion 0 1 0 0).
Proof.
  rewrite twoNotes_state. cbn [App.handle]. unfold App.handleDeleteMemory.
  cbn [App.selectedMemory App.memories App.activeQuaternion].
  rewrite decide_False by discriminate.
  rewrite filter_cons, decide_True by discriminate.
  rewrite filter_cons, decide_False by (intros H; now apply H).
  reflexivity.
Qed.

(** X28.  From a state whose selection is in the collection, a handler
    leaves the selection in the collection exactly when the event is
    neither the selection of a memory outside the collection nor an empty
    generated batch while a memory is selected.  Encoding, deleting and
    clearing always keep it: deleting another memory keeps the selection
    in the filtered list, deleting the selected one clears it. *)
Theorem handle_selectionStored (s : App.state) (e : App.event) :
  selectionStored s ->
  (selectionStored (App.handle s e) <-> keepsSelection s e).
Proof.
  unfold selectionStored, keepsSelection. intros Hs.
  destruct e as [uuid now content q sig|memory|id| |newMemories];
    cbn [App.handle].
  - split; [done|]. intros _. cbn. apply elem_of_cons. now left.
  - reflexivity.
  - split; [done|]. intros _. unfold App.handleDeleteMemory.
    destruct (App.selectedMemory s) as [selected|] eqn:Hsel.
    + destruct (decide (Memory.id selected = id)) as [Heq|Hne]; cbn; [exact I|].
      apply list_elem_of_filter. now split.
    + exact I.
  - done.
  - destruct newMemories as [|first rest]; cbn.
    + destruct (App.selectedMemory s) as [selected|].
      * split; [intros Hin; now apply elem_of_nil in Hin|].
        intros [Hne|Hnone]; [done|discriminate].
      * split; [now right|done].
    + split; [now left|]. intros _. apply elem_of_cons. now left.
Qed.

(** With [noteB] selected among [noteB; noteA]: deleting [noteA] keeps the
    selection stored, so does selecting [noteA]; once [noteA] is deleted,
    selecting it again (from stale clusters) leaves a selection that is
    not in the collection. *)
Lemma handle_selectionStored_witness :
  selectionStored (App.handle twoNotes (App.Delete [1]%Z)) /\
  selectionStored (App.handle twoNotes (App.Select noteA)) /\
  ¬ selectionStored
      (App.handle (App.handle twoNotes (App.Delete [1]%Z)) (App.Select noteA)).
Proof.
  assert (Hs : selectionStored twoNotes).
  { rewrite twoNotes_state. cbn. apply elem_of_cons. now left. }
  split; [|split].
  - apply (handle_selectionStored twoNotes (App.Delete [1]%Z) Hs). exact I.
  - apply (handle_selectionStored twoNotes (App.Select noteA) Hs).
    rewrite twoNotes_state. cbn.
    apply elem_of_cons. right. apply elem_of_cons. now left.
  - intros Hstored.
    apply (handle_selectionStored
             (App.handle twoNotes (App.Delete [1]%Z)) (App.Select noteA))
      in Hstored.
    + rewrite twoNotes_delete_A in Hstored. cbn in Hstored.
      apply elem_of_cons in Hstored as [Heq|Hin];
        [discriminate Heq|now apply elem_of_nil in Hin].
    + rewrite twoNotes_delete_A. cbn. apply elem_of_cons. now left.
Defined.

Lemma filter_all {A : Type} (P : A -> Prop) `{!∀ a, Decision (P a)}
    (l : list A) :
  Forall P l -> filter P l = l.
Proof.
  induction 1 as [|a l Ha _ IH]; [reflexivity|].
  rewrite filter_cons, decide_True by exact Ha. now rewrite IH.
Qed.

(** X29.  Deleting by id removes every memory with that id and keeps the
    others in their order; an id that no memory has leaves the
    collection as it was; and deleting a memory right after encoding it
    under a fresh id restores the collection, with nothing selected and
    the identity quaternion active. *)
Theorem handleDeleteMemory_properties (id : jsstring) (s : App.state) :
  let s' := App.handleDeleteMemory id s in
  Forall (λ m, Memory.id m ≠ id) (App.memories s') /\
  App.memories s' `sublist_of` App.memories s /\
  (forall m, m ∈ App.memories s -> Memory.id m ≠ id -> m ∈ App.memories s') /\
  (Forall (λ m, Memory.id m ≠ id) (App.memories s) ->
   App.memories s' = App.memories s /\
   forall now content quaternion primeSignature,
     App.handleDeleteMemory id
       (App.handleEncode id now content quaternion primeSignature s)
     = App.mkState (App.memories s) None (createQuaternion 1 0 0 0)).
Proof.
  intros s'.
  assert (Hm : App.memories s' = filter (λ m, Memory.id m ≠ id) (App.memories s)).
  { unfold s', App.handleDeleteMemory.
    destruct (App.selectedMemory s) as [selected|];
      [destruct (decide (Memory.id selected = id))|]; reflexivity. }
  rewrite Hm. split; [|split; [|split]].
  - apply Forall_forall. intros m Hin.
    now apply list_elem_of_filter in Hin as [Hne _].
  - apply sublist_filter.
  - intros m Hin Hne. apply list_elem_of_filter. now split.
  - intros Hfresh. split; [now apply filter_all|].
    intros now content quaternion primeSignature.
    unfold App.handleEncode, App.handleDeleteMemory.
    cbn [App.selectedMemory App.memories Memory.id].
    rewrite decide_True by reflexivity.
    rewrite filter_cons, decide_False by (cbn; intros H; now apply H).
    now rewrite filter_all.
Qed.

(** On the page that holds [noteB] and [noteA]: deleting the id [[3]],
    which neither has, keeps both; encoding a third memory under that id
    and deleting it again gives back the two, with nothing selected. *)
Lemma handleDeleteMemory_properties_witness :
  App.memories (App.handleDeleteMemory [3]%Z twoNotes) = [noteB; noteA] /\
  App.handleDeleteMemory [3]%Z
    (App.handleEncode [3]%Z 2 [99]%Z (createQuaternion 0 0 1 0) [5]%Z twoNotes)
  = App.mkState [noteB; noteA] None (createQuaternion 1 0 0 0).
Proof.
  assert (Hfresh : Forall (λ m, Memory.id m ≠ [3]%Z) (App.memories twoNotes)).
  { rewrite twoNotes_state. cbn. repeat constructor; discriminate. }
  destruct (handleDeleteMemory_properties [3]%Z twoNotes) as (_ & _ & _ & Hkeep).
  destruct (Hkeep Hfresh) as [Hsame Hround].
  split.
  - rewrite Hsame. now rewrite twoNotes_state.
  - rewrite Hround. now rewrite twoNotes_state.
Defined.

(** ** Clustering at the ends of the threshold range *)

Lemma filter_none {A : Type} (P : A -> Prop) `{!∀ a, Decision (P a)}
    (l : list A) :
  Forall (λ a, ¬ P a) l -> filter P l = [].
Proof.
  induction 1 as [|a l Ha _ IH]; [reflexivity|].
  rewrite filter_cons, decide_False by exact Ha. exact IH.
Qed.

Lemma greedy_all_linked {A} (linked : A -> A -> Prop) `{!RelDecision linked}
    (l : list A) :
  (∀ a b, linked a b) -> l <> [] -> greedy linked l = [l].
Proof.
  intros Hall Hne. destruct l as [|seed later]; [done|].
  simp greedy.
  rewrite (filter_all (linked seed)) by (apply Forall_forall; intros; apply Hall).
  rewrite (filter_none (λ r, ¬ linked seed r))
    by (apply Forall_forall; intros b _ Hn; apply Hn, Hall).
  now simp greedy.
Qed.

Lemma greedy_unlinked_in {A} (linked : A -> A -> Prop) `{!RelDecision linked}
    (l : list A) :
  (∀ a b, a ∈ l -> b ∈ l -> ¬ linked a b) ->
  greedy linked l = (λ r, [r]) <$> l.
Proof.
  induction l as [|seed later IH]; intros Hnone; [now simp greedy|].
  simp greedy.
  rewrite (filter_none (linked seed)).
  2:{ apply Forall_forall. intros b Hb.
      apply Hnone; apply elem_of_cons; [now left|now right]. }
  rewrite (filter_all (λ r, ¬ linked seed r)).
  2:{ apply Forall_forall. intros b Hb.
      apply Hnone; apply elem_of_cons; [now left|now right]. }
  rewrite IH; [reflexivity|].
  intros a b Ha Hb. apply Hnone; apply elem_of_cons; now right.
Qed.

(** X30.  With a threshold of 0 or less all results form one cluster, in
    their order, numbered 0.  With a threshold above 1 and unit
    quaternions no two results are ever joined: every result is a
    cluster of its own, numbered by its position, and the clusters are
    these singletons sorted by resonance. *)
Theorem clusterResults_threshold (results : list SearchResult)
    (threshold : R) :
  (threshold <= 0 -> results <> [] ->
   clusterResults results threshold = [specCluster 0 results]) /\
  (1 < threshold ->
   Forall (λ r, magnitude (Memory.quaternion (memory r)) = 1) results ->
   clusterResults results threshold
     = sortDesc (imap (λ k r, specCluster k [r]) results) /\
   length (clusterResults results threshold) = length results).
Proof.
  split.
  - intros Hth Hne. unfold clusterResults.
    rewrite decide_False by (destruct results; [done|discriminate]).
    cbv zeta. rewrite clusterList_greedy.
    rewrite greedy_all_linked; [reflexivity| |exact Hne].
    intros a b. unfold entangled, strength.
    pose proof (entanglementStrength_nonneg (Memory.encoded (memory a))
                  (Memory.encoded (memory b))). lra.
  - intros Hth Hunit.
    assert (Heq : clusterResults results threshold
                  = sortDesc (imap (λ k r, specCluster k [r]) results)).
    { unfold clusterResults.
      destruct (decide (length results = 0%nat)) as [Hz|Hnz].
      - apply nil_length_inv in Hz. now rewrite Hz.
      - cbv zeta. rewrite clusterList_greedy.
        rewrite greedy_unlinked_in; [now rewrite imap_fmap|].
        intros a b Ha Hb. unfold entangled, strength.
        rewrite Forall_forall in Hunit.
        pose proof (entanglementStrength_le_1 (Memory.encoded (memory a))
                      (Memory.encoded (memory b)) (Hunit a Ha) (Hunit b Hb)).
        lra. }
    split; [exact Heq|].
    rewrite Heq, (Permutation_length (sortDesc_perm _)).
    apply length_imap.
Qed.

Lemma clusterResults_threshold_witness :
  clusterResults [rA 1; rB 2] 0 = [specCluster 0 [rA 1; rB 2]] /\
  length (clusterResults [rA 1; rB 2] 2) = 2%nat.
Proof.
  split.
  - apply (clusterResults_threshold [rA 1; rB 2] 0); [lra|discriminate].
  - apply (clusterResults_threshold [rA 1; rB 2] 2); [lra|].
    repeat constructor; [apply magnitude_1000|apply magnitude_0100].
Defined.

(** ** Double precision *)

(** In doubles, as in the exact model, (3,4,0,0) has magnitude 5 and its
    normalized form has magnitude 1. *)
Example normalize_double_threeFour :
  Double.magnitude Double.threeFour = Double.ofNat 5 /\
  Double.magnitude (Double.normalize Double.threeFour) = PrimFloat.one.
Proof. split; reflexivity. Qed.

(** The sum of squares of (1e200, 0, 0, 0), 1e400, is beyond the range of
    the doubles. *)
Lemma huge_not_inDoubleRange :
  ¬ inDoubleRange (sumSquares (createQuaternion (10 ^ 200) 0 0 0)).
Proof.
  unfold inDoubleRange, sumSquares. cbn [w x y z]. intros [_ Hhi].
  assert (Hlt : 2 ^ 1023 < 10 ^ 200 * 10 ^ 200).
  { rewrite <- pow_add, !pow_IZR. apply IZR_lt. reflexivity. }
  lra.
Qed.

(** C6, as stated, fails in doubles at (1e200, 0, 0, 0): the square of
    1e200 is beyond the largest double, so the magnitude is computed as
    Infinity, and each component divided by it is 0.  The output is
    (0,0,0,0), of magnitude 0. *)
Lemma normalize_overflow_counterexample :
  Double.magnitude Double.huge = PrimFloat.infinity /\
  Double.normalize Double.huge = Double.origin /\
  Double.magnitude (Double.normalize Double.huge) = PrimFloat.zero.
Proof. split; [reflexivity|]. split; reflexivity. Qed.

(** *** The entropy of eleven distinct primes *)

Lemma setCount_fresh (prime : Z) (primeFreq : list (Z * PrimFloat.float)) :
  prime ∉ primeFreq.*1 ->
  Double.setCount prime primeFreq
  = primeFreq ++ [(prime, PrimFloat.add PrimFloat.zero PrimFloat.one)].
Proof.
  induction primeFreq as [|[key count] rest IH]; intros Hfresh; [reflexivity|].
  cbn [Double.setCount]. rewrite fmap_cons in Hfresh. cbn [fst] in Hfresh.
  apply not_elem_of_cons in Hfresh as [Hne Hrest].
  rewrite decide_False by congruence. now rewrite IH.
Qed.

(** Counting a signature of distinct primes that are new to the map adds
    them in order, each with the count 1. *)
Lemma countPrime_fresh (sig : list Z) :
  ∀ primeFreq total,
    NoDup sig -> (∀ p, p ∈ sig -> p ∉ primeFreq.*1) ->
    foldl Double.countPrime (primeFreq, total) sig
    = (primeFreq
         ++ ((λ p, (p, PrimFloat.add PrimFloat.zero PrimFloat.one)) <$> sig),
       foldl (λ t _, PrimFloat.add t PrimFloat.one) total sig).
Proof.
  induction sig as [|prime sig IH]; intros primeFreq total Hnd Hfresh.
  - cbn. now rewrite app_nil_r.
  - apply NoDup_cons in Hnd as [Hprime Hnd].
    cbn [foldl]. unfold Double.countPrime at 2. cbn [fst snd].
    rewrite setCount_fresh by (apply Hfresh, elem_of_cons; now left).
    rewrite IH; [|exact Hnd|].
    + rewrite fmap_cons, <- app_assoc. reflexivity.
    + intros p Hp. rewrite fmap_app, elem_of_app. cbn.
      intros [Hin|Hin].
      * revert Hin. apply Hfresh, elem_of_cons. now right.
      * apply list_elem_of_singleton in Hin. cbn in Hin. subst p.
        exact (Hprime Hp).
Qed.

(** The signature of [alphabetMemory] is the one the encoder gives to
    "abcdefghijk". *)
Example primeSignature_alphabet :
  primeSignature
    (encodeText asciiLower
       [97; 98; 99; 100; 101; 102; 103; 104; 105; 106; 107]%Z)
  = Memory.primeSignature alphabetMemory.
Proof. reflexivity. Qed.

Section DoubleEntropy.

(** [Math.log2]. *)
Variable log2 : PrimFloat.float -> PrimFloat.float.

(** C8.  In doubles the entropy of one memory whose signature holds
    eleven distinct primes, such as the memory of "abcdefghijk", is
    1.0000000000000002, above 1, when [Math.log2] returns the nearest
    doubles at 11 and at 1/11: each of the eleven terms is the rounded
    product of 1/11 and [log2 (1/11)], and their rounded sum is one unit
    in the last place above [log2 11]. *)
Theorem calculateEntropy_above_1 (mem : Memory.t) :
  NoDup (Memory.primeSignature mem) ->
  length (Memory.primeSignature mem) = 11%nat ->
  log2 Double.eleven = Double.log2Eleven ->
  log2 Double.eleventh = PrimFloat.opp Double.log2Eleven ->
  Double.calculateEntropy log2 [mem] = Double.aboveOne /\
  PrimFloat.ltb PrimFloat.one (Double.calculateEntropy log2 [mem]) = true.
Proof.
  intros Hnd Hlen H11 H11th.
  lazy in H11, H11th.
  assert (H : Double.calculateEntropy log2 [mem] = Double.aboveOne).
  { unfold Double.calculateEntropy.
    rewrite decide_False by discriminate.
    cbn [foldl]. unfold Double.countMemory.
    rewrite countPrime_fresh;
      [|exact Hnd|intros p _ Hin; now apply elem_of_nil in Hin].
    destruct (Memory.primeSignature mem)
      as [|p1 [|p2 [|p3 [|p4 [|p5 [|p6 [|p7 [|p8 [|p9 [|p10 [|p11
          [|p12 rest]]]]]]]]]]]];
      try discriminate Hlen.
    lazy. rewrite H11th, !H11. reflexivity. }
  rewrite H. split; reflexivity.
Qed.

End DoubleEntropy.

(** The memory of "abcdefghijk" under [Double.log2Nearest]. *)
Lemma calculateEntropy_above_1_witness :
  Double.calculateEntropy Double.log2Nearest [alphabetMemory]
    = Double.aboveOne /\
  PrimFloat.ltb PrimFloat.one
    (Double.calculateEntropy Double.log2Nearest [alphabetMemory]) = true.
Proof.
  apply (calculateEntropy_above_1 Double.log2Nearest alphabetMemory).
  - cbn [alphabetMemory Memory.primeSignature].
    apply (bool_decide_unpack _). reflexivity.
  - reflexivity.
  - reflexivity.
  - reflexivity.
Defined.
